(** * Quaternion: a shallow embedding of [src/classes/quaternion.ts]

    The class [Quaternion] of the library is embedded over the real
    numbers: a JavaScript [number] is read as an element of [R], so every
    statement below is about exact arithmetic.  [NaN], the infinities, the
    negative zero and the rounding of floating point have no counterpart
    here; where the source can produce [NaN] or an infinity from finite
    inputs (a division by a magnitude that is zero, as in [inverse]), the
    statements carry a hypothesis on the magnitude.  Two functions differ
    from their embedding through rounding alone: [Angle] hands
    [dot / (magFrom * magTo)] to [Math.acos], a quotient that is at most
    [1] in absolute value here and may exceed it by one rounding in
    floating point, and [eulerAngles] tests [t2 > 1], which a unit
    quaternion never meets here and may meet by one rounding there.  The
    statements that involve them are statements on the exact values.

    The embedded class is the current one (the second class of
    [quaternion.ts], also shipped as [dist/src/classes/quaternion.js]).
    The first class of the file is an earlier revision; its [DoSlerp]
    runs the loop [for (let i = 0; i < t; i += Number.MIN_VALUE)], whose
    behaviour rests on the rounding of [i += Number.MIN_VALUE], and is not
    embedded.

    The file has two parts: the definitions (the class, its mutating
    methods on a heap of objects, the interpolation once more with its
    calls counted, the algorithm of the specification, and the values and
    auxiliary functions used in the statements), then the lemmas and
    theorems.  [Math.atan2] is a parameter of [eulerAngles], and
    [Vector3], which is not among the sources, is a record of three
    numbers. *)

From Stdlib Require Import Reals Lra Lia Psatz Arith Bool.

Local Open Scope R_scope.

(** Modelled from the spec: the class [Vector3] of the package
    [@xloxlolex/vector-math] is imported by [quaternion.ts] and is not
    among the sources.  The specification describes it as a data-only
    type with three numeric fields [x], [y], [z] and a three-argument
    constructor; the constructor is read as storing its arguments. *)
Module Vector3.

Record t : Type := mk { x : R; y : R; z : R }.

Definition new (vx vy vz : R) : t := mk vx vy vz.

End Vector3.

Module Quaternion.

(** ** Data model *)

(** The four public fields [x], [y], [z], [w]. *)
Record t : Type := mk { x : R; y : R; z : R; w : R }.

(** Field assignment [this.f = v]. *)
Definition set_x (this : t) (v : R) : t := mk v (y this) (z this) (w this).
Definition set_y (this : t) (v : R) : t := mk (x this) v (z this) (w this).
Definition set_z (this : t) (v : R) : t := mk (x this) (y this) v (w this).
Definition set_w (this : t) (v : R) : t := mk (x this) (y this) (z this) v.

(** The field initialisers [x = 0; y = 0; z = 0; w = 1]. *)
Definition initial : t := mk 0 0 0 1.

(** JavaScript truthiness of an optional number: [undefined] (here [None])
    and [0] are falsy, every other real is truthy. *)
Definition truthy (v : option R) : bool :=
  match v with
  | None => false
  | Some r => if Req_dec_T r 0 then false else true
  end.

(** The value of a parameter that passed the test [if (v)]. *)
Definition arg (v : option R) : R :=
  match v with
  | None => 0
  | Some r => r
  end.

(** [constructor(x?, y?, z?, w?)]:
      [if (x) this.x = x; if (y) this.y = y; if (z) this.z = z; if (w) this.w = w;] *)
Definition constructor (px py pz pw : option R) : t :=
  let this := initial in
  let this := if truthy px then set_x this (arg px) else this in
  let this := if truthy py then set_y this (arg py) else this in
  let this := if truthy pz then set_z this (arg pz) else this in
  let this := if truthy pw then set_w this (arg pw) else this in
  this.

(** [new Quaternion(x, y, z, w)] with the four arguments given. *)
Definition new (vx vy vz vw : R) : t :=
  constructor (Some vx) (Some vy) (Some vz) (Some vw).

(** [static get identity()]. *)
Definition identity : t := new 0 0 0 1.

(** ** Derived properties *)

(** [static Dot(lhs, rhs)]. *)
Definition Dot (lhs rhs : t) : R :=
  x lhs * x rhs + y lhs * y rhs + z lhs * z rhs + w lhs * w rhs.

(** [get magnitude()]. *)
Definition magnitude (this : t) : R := sqrt (Dot this this).

(** [get sqrMagnitude()]. *)
Definition sqrMagnitude (this : t) : R := sqrt (magnitude this).

(** [get normalized()]. *)
Definition normalized (this : t) : t :=
  let mag := magnitude this in
  if Rgt_dec mag 0 then
    new (x this / mag) (y this / mag) (z this / mag) (w this / mag)
  else identity.

(** [get conjugate()]. *)
Definition conjugate (this : t) : t :=
  new (- x this) (- y this) (- z this) (w this).

(** [get inverse()]. *)
Definition inverse (this : t) : t :=
  let conj := conjugate this in
  let mag2 := magnitude this ^ 2 in
  new (x conj / mag2) (y conj / mag2) (z conj / mag2) (w conj / mag2).

(** ** Static algebra *)

Definition Normalize (q : t) : t := normalized q.

Definition Magnitude (quaternion : t) : R := magnitude quaternion.

Definition Add (lhs rhs : t) : t :=
  new (x lhs + x rhs) (y lhs + y rhs) (z lhs + z rhs) (w lhs + w rhs).

Definition Subtract (lhs rhs : t) : t :=
  new (x lhs - x rhs) (y lhs - y rhs) (z lhs - z rhs) (w lhs - w rhs).

Definition Multiply (lhs rhs : t) : t :=
  new
    (w lhs * x rhs + x lhs * w rhs + y lhs * z rhs - z lhs * y rhs)
    (w lhs * y rhs + y lhs * w rhs + z lhs * x rhs - x lhs * z rhs)
    (w lhs * z rhs + z lhs * w rhs + x lhs * y rhs - y lhs * x rhs)
    (w lhs * w rhs - x lhs * x rhs - y lhs * y rhs - z lhs * z rhs).

Definition Divide (lhs rhs : t) : t :=
  let inverseRhs := inverse rhs in
  Multiply lhs inverseRhs.

(** [static ClampMagnitude(quaternion, maxLength)]. *)
Definition ClampMagnitude (quaternion : t) (maxLength : R) : t :=
  let mag := magnitude quaternion in
  let multiplier := if Rgt_dec mag maxLength then maxLength / mag else 1 in
  new (x quaternion * multiplier) (y quaternion * multiplier)
      (z quaternion * multiplier) (w quaternion * multiplier).

(** ** Interpolation *)

Definition DOT_THRESHOLD : R := 9995 / 10000.

(** [private static DoSlerp(from, to, t)].  The reassignment of [to] and
    [dot] inside [if (dot < 0)] is the pair bound by the first [let]. *)
Definition DoSlerp (from to : t) (t_ : R) : t :=
  let dot := Dot from to in
  let '(to, dot) :=
    if Rlt_dec dot 0
    then (new (- x to) (- y to) (- z to) (- w to), - dot)
    else (to, dot) in
  if Rgt_dec dot DOT_THRESHOLD then
    let result :=
      new (x from + t_ * (x to - x from))
          (y from + t_ * (y to - y from))
          (z from + t_ * (z to - z from))
          (w from + t_ * (w to - w from)) in
    normalized result
  else
    let theta_0 := acos dot in
    let theta := theta_0 * t_ in
    let to_orthogonal :=
      normalized
        (new (x to - x from * dot)
             (y to - y from * dot)
             (z to - z from * dot)
             (w to - w from * dot)) in
    new (x from * cos theta + x to_orthogonal * sin theta)
        (y from * cos theta + y to_orthogonal * sin theta)
        (z from * cos theta + z to_orthogonal * sin theta)
        (w from * cos theta + w to_orthogonal * sin theta).

(** [static Slerp(from, to, t)]. *)
Definition Slerp (from to : t) (t_ : R) : t :=
  if Rlt_dec t_ 0 then from
  else if Rgt_dec t_ 1 then to
  else DoSlerp from to t_.

(** [static SlerpUnclamped(from, to, t)]. *)
Definition SlerpUnclamped (from to : t) (t_ : R) : t :=
  DoSlerp from to t_.

(** ** Mutating instance methods

    [Add], [Subtract], [Multiply] and [Divide] on a receiver assign to the
    fields of [this] one statement after the other.  Objects live in a
    heap of references, so that the receiver and the argument may be the
    same object and every statement reads the fields as the previous
    statements left them. *)

Definition ref : Type := nat.

Record heap : Type := mkHeap { next : ref; objs : ref -> t }.

Definition read (h : heap) (r : ref) : t := objs h r.

Definition write (h : heap) (r : ref) (q : t) : heap :=
  mkHeap (next h) (fun r' => if Nat.eqb r' r then q else objs h r').

(** A getter or a static method hands back a fresh object. *)
Definition alloc (h : heap) (q : t) : ref * heap :=
  (next h,
   mkHeap (S (next h)) (fun r' => if Nat.eqb r' (next h) then q else objs h r')).

Module Inst.

(** [Add(other)]: [this.x += other.x; ...; this.w += other.w;] *)
Definition Add (this other : ref) (h : heap) : heap :=
  let h := write h this (set_x (read h this) (x (read h this) + x (read h other))) in
  let h := write h this (set_y (read h this) (y (read h this) + y (read h other))) in
  let h := write h this (set_z (read h this) (z (read h this) + z (read h other))) in
  let h := write h this (set_w (read h this) (w (read h this) + w (read h other))) in
  h.

(** [Subtract(other)]: [this.x -= other.x; ...; this.w -= other.w;] *)
Definition Subtract (this other : ref) (h : heap) : heap :=
  let h := write h this (set_x (read h this) (x (read h this) - x (read h other))) in
  let h := write h this (set_y (read h this) (y (read h this) - y (read h other))) in
  let h := write h this (set_z (read h this) (z (read h this) - z (read h other))) in
  let h := write h this (set_w (read h this) (w (read h this) - w (read h other))) in
  h.

(** [Multiply(other)]: the four assignments of the source, in its order;
    the right-hand side of each one reads the fields already assigned. *)
Definition Multiply (this other : ref) (h : heap) : heap :=
  let h :=
    let a := read h this in let b := read h other in
    write h this (set_x a (w a * x b + x a * w b + y a * z b - z a * y b)) in
  let h :=
    let a := read h this in let b := read h other in
    write h this (set_y a (w a * y b + y a * w b + z a * x b - x a * z b)) in
  let h :=
    let a := read h this in let b := read h other in
    write h this (set_z a (w a * z b + z a * w b + x a * y b - y a * x b)) in
  let h :=
    let a := read h this in let b := read h other in
    write h this (set_w a (w a * w b - x a * x b - y a * y b - z a * z b)) in
  h.

(** [get conjugate()] on the object at [this]: its [new Quaternion] is a
    fresh object. *)
Definition conjugate (this : ref) (h : heap) : ref * heap :=
  let q := read h this in
  alloc h (new (- x q) (- y q) (- z q) (w q)).

(** [get inverse()] on the object at [this]: the conjugate is one fresh
    object, the [new Quaternion] that is returned a second one. *)
Definition inverse (this : ref) (h : heap) : ref * heap :=
  let allocated := conjugate this h in
  let conj := fst allocated in
  let h := snd allocated in
  let mag2 := magnitude (read h this) ^ 2 in
  let c := read h conj in
  alloc h (new (x c / mag2) (y c / mag2) (z c / mag2) (w c / mag2)).

(** [Divide(other)]: [const inverseOther = other.inverse; this.Multiply(inverseOther);] *)
Definition Divide (this other : ref) (h : heap) : heap :=
  let '(inverseOther, h) := inverse other h in
  Multiply this inverseOther h.

End Inst.

(** ** The remaining methods of the class *)

(** [static Euler(v)]. *)
Definition Euler (v : Vector3.t) : t :=
  new
    (sin (Vector3.z v / 2) * cos (Vector3.y v / 2) * cos (Vector3.x v / 2)
     - cos (Vector3.z v / 2) * sin (Vector3.y v / 2) * sin (Vector3.x v / 2))
    (cos (Vector3.z v / 2) * sin (Vector3.y v / 2) * cos (Vector3.x v / 2)
     + sin (Vector3.z v / 2) * cos (Vector3.y v / 2) * sin (Vector3.x v / 2))
    (cos (Vector3.z v / 2) * cos (Vector3.y v / 2) * sin (Vector3.x v / 2)
     - sin (Vector3.z v / 2) * sin (Vector3.y v / 2) * cos (Vector3.x v / 2))
    (cos (Vector3.z v / 2) * cos (Vector3.y v / 2) * cos (Vector3.x v / 2)
     + sin (Vector3.z v / 2) * sin (Vector3.y v / 2) * sin (Vector3.x v / 2)).

Section EulerAngles.

(** [Math.atan2] has no counterpart among the real functions at hand; the
    getter is embedded over any two-argument function in its place. *)
Variable atan2 : R -> R -> R.


End EulerAngles.

(** [static Angle(from, to)].  The quotient handed to [Math.acos] is the
    exact one. *)
Definition Angle (from to : t) : R :=
  let dot := Dot from to in
  let magFrom := magnitude from in
  let magTo := magnitude to in
  let RAD := 180 / PI in
  acos (dot / (magFrom * magTo)) * RAD.

(** [static RotateTowards(from, to, maxDegreesDelta)]. *)
Definition RotateTowards (from to : t) (maxDegreesDelta : R) : t :=
  let angle := Angle from to in
  if Req_dec_T angle 0 then to
  else SlerpUnclamped from to (Rmin 1 (maxDegreesDelta / angle)).

(** [static RotatePoint(rotation, point)]. *)
Definition RotatePoint (rotation : t) (point : Vector3.t) : Vector3.t :=
  let x_ := x rotation * 2 in
  let y_ := y rotation * 2 in
  let z_ := z rotation * 2 in
  let xx := x rotation * x_ in
  let yy := y rotation * y_ in
  let zz := z rotation * z_ in
  let xy := x rotation * y_ in
  let xz := x rotation * z_ in
  let yz := y rotation * z_ in
  let wx := w rotation * x_ in
  let wy := w rotation * y_ in
  let wz := w rotation * z_ in
  let res :=
    Vector3.new
      ((1 - (yy + zz)) * Vector3.x point + (xy - wz) * Vector3.y point
       + (xz + wy) * Vector3.z point)
      ((xy + wz) * Vector3.x point + (1 - (xx + zz)) * Vector3.y point
       + (yz - wx) * Vector3.z point)
      ((xz - wy) * Vector3.x point + (yz + wx) * Vector3.y point
       + (1 - (xx + yy)) * Vector3.z point) in
  res.

(** ** The interpolation with its calls counted

    For the statement on termination the interpolation is embedded once
    more, with what the embedding above leaves implicit made explicit: a
    computation runs on fuel and may meet an operation without a result.
    Every call (of a method, a getter, the constructor or a function of
    [Math]) takes one unit of fuel, and a computation that is out of fuel
    stops with [OutOfFuel]; a loop would pay for every iteration.
    [Math.sqrt] of a negative number, [Math.acos] outside [[-1, 1]] and a
    division by zero, where JavaScript answers [NaN] or an infinity, stop
    the computation with [Undefined]. *)

Inductive outcome (A : Type) : Type :=
| Value (a : A) (rest : nat)
| Undefined
| OutOfFuel.

Arguments Value {A} a rest.
Arguments Undefined {A}.
Arguments OutOfFuel {A}.

Definition M (A : Type) : Type := nat -> outcome A.

Definition ret {A : Type} (a : A) : M A := fun fuel => Value a fuel.

Definition bind {A B : Type} (m : M A) (k : A -> M B) : M B :=
  fun fuel =>
    match m fuel with
    | Value a rest => k a rest
    | Undefined => Undefined
    | OutOfFuel => OutOfFuel
    end.

Definition undefined {A : Type} : M A := fun _ => Undefined.

(** One call: a unit of fuel, then the body. *)
Definition call {A : Type} (body : M A) : M A :=
  fun fuel =>
    match fuel with
    | O => OutOfFuel
    | S fuel' => body fuel'
    end.

Notation "v <- m ;; k" := (bind m (fun v => k))
  (at level 61, m at next level, right associativity).

Module Run.

Definition Math_sqrt (a : R) : M R :=
  call (if Rlt_dec a 0 then undefined else ret (sqrt a)).

Definition Math_acos (a : R) : M R :=
  call (if Rlt_dec a (-1) then undefined
        else if Rgt_dec a 1 then undefined
        else ret (acos a)).

Definition Math_cos (a : R) : M R := call (ret (cos a)).

Definition Math_sin (a : R) : M R := call (ret (sin a)).

(** The quotient [a / b]. *)
Definition div (a b : R) : M R :=
  if Req_dec_T b 0 then undefined else ret (a / b).

(** [new Quaternion(x, y, z, w)]. *)
Definition new (vx vy vz vw : R) : M t := call (ret (new vx vy vz vw)).

(** [static get identity()]. *)
Definition identity : M t := call (new 0 0 0 1).

(** [static Dot(lhs, rhs)]. *)
Definition Dot (lhs rhs : t) : M R := call (ret (Dot lhs rhs)).

(** [get magnitude()]. *)
Definition magnitude (this : t) : M R :=
  call (d <- Dot this this ;; Math_sqrt d).

(** [get normalized()]. *)
Definition normalized (this : t) : M t :=
  call (mag <- magnitude this ;;
        if Rgt_dec mag 0 then
          vx <- div (x this) mag ;;
          vy <- div (y this) mag ;;
          vz <- div (z this) mag ;;
          vw <- div (w this) mag ;;
          new vx vy vz vw
        else identity).

(** [private static DoSlerp(from, to, t)]; [Math.cos(theta)] and
    [Math.sin(theta)] are called once for each component. *)
Definition DoSlerp (from to : t) (t_ : R) : M t :=
  call (dot <- Dot from to ;;
        to_dot <- (if Rlt_dec dot 0 then
                     to' <- new (- x to) (- y to) (- z to) (- w to) ;;
                     ret (to', - dot)
                   else ret (to, dot)) ;;
        let '(to, dot) := to_dot in
        if Rgt_dec dot DOT_THRESHOLD then
          result <- new (x from + t_ * (x to - x from))
                        (y from + t_ * (y to - y from))
                        (z from + t_ * (z to - z from))
                        (w from + t_ * (w to - w from)) ;;
          normalized result
        else
          theta_0 <- Math_acos dot ;;
          let theta := theta_0 * t_ in
          v <- new (x to - x from * dot)
                   (y to - y from * dot)
                   (z to - z from * dot)
                   (w to - w from * dot) ;;
          to_orthogonal <- normalized v ;;
          cx <- Math_cos theta ;; sx <- Math_sin theta ;;
          cy <- Math_cos theta ;; sy <- Math_sin theta ;;
          cz <- Math_cos theta ;; sz <- Math_sin theta ;;
          cw <- Math_cos theta ;; sw <- Math_sin theta ;;
          new (x from * cx + x to_orthogonal * sx)
              (y from * cy + y to_orthogonal * sy)
              (z from * cz + z to_orthogonal * sz)
              (w from * cw + w to_orthogonal * sw)).

(** [static Slerp(from, to, t)]. *)
Definition Slerp (from to : t) (t_ : R) : M t :=
  call (if Rlt_dec t_ 0 then ret from
        else if Rgt_dec t_ 1 then ret to
        else DoSlerp from to t_).

(** [static SlerpUnclamped(from, to, t)]. *)
Definition SlerpUnclamped (from to : t) (t_ : R) : M t :=
  call (DoSlerp from to t_).

End Run.

(** [m] returns [v] on every supply of at least [cost] units of fuel, of
    which it uses at most [cost]. *)
Definition returns_within {A : Type} (m : M A) (v : A) (cost : nat) : Prop :=
  forall fuel : nat,
    (cost <= fuel)%nat ->
    exists rest : nat, m fuel = Value v rest /\ (fuel <= rest + cost)%nat.

(** ** The interpolation of the specification

    Section 4.4 of the specification describes [DoSlerp] on 4-tuples, with
    [normalize] dividing by the magnitude and no constructor in between.
    [DoSlerp_spec] follows those words; it is what [DoSlerp] is compared
    with. *)

(** All four components negated, as a value. *)
Definition negated (q : t) : t := mk (- x q) (- y q) (- z q) (- w q).

Definition normalize_spec (q : t) : t :=
  let mag := magnitude q in
  if Rgt_dec mag 0 then mk (x q / mag) (y q / mag) (z q / mag) (w q / mag)
  else mk 0 0 0 1.

Definition interpolate_spec (from to : t) (dot t_ : R) : t :=
  if Rgt_dec dot DOT_THRESHOLD then
    normalize_spec
      (mk (x from + t_ * (x to - x from)) (y from + t_ * (y to - y from))
          (z from + t_ * (z to - z from)) (w from + t_ * (w to - w from)))
  else
    let theta0 := acos dot in
    let theta := theta0 * t_ in
    let to_orthogonal :=
      normalize_spec
        (mk (x to - x from * dot) (y to - y from * dot)
            (z to - z from * dot) (w to - w from * dot)) in
    mk (x from * cos theta + x to_orthogonal * sin theta)
       (y from * cos theta + y to_orthogonal * sin theta)
       (z from * cos theta + z to_orthogonal * sin theta)
       (w from * cos theta + w to_orthogonal * sin theta).

Definition DoSlerp_spec (from to : t) (t_ : R) : t :=
  let dot := Dot from to in
  if Rlt_dec dot 0
  then interpolate_spec from (negated to) (- dot) t_
  else interpolate_spec from to dot t_.

(** ** Values and auxiliary definitions used in the statements *)

(** What [DoSlerp] computes once [to] and [dot] have their final values,
    that is from [const DOT_THRESHOLD] on. *)
Definition interpolate (from to : t) (dot t_ : R) : t :=
  if Rgt_dec dot DOT_THRESHOLD then
    normalized
      (new (x from + t_ * (x to - x from))
           (y from + t_ * (y to - y from))
           (z from + t_ * (z to - z from))
           (w from + t_ * (w to - w from)))
  else
    let theta := acos dot * t_ in
    let to_orthogonal :=
      normalized
        (new (x to - x from * dot)
             (y to - y from * dot)
             (z to - z from * dot)
             (w to - w from * dot)) in
    new (x from * cos theta + x to_orthogonal * sin theta)
        (y from * cos theta + y to_orthogonal * sin theta)
        (z from * cos theta + z to_orthogonal * sin theta)
        (w from * cos theta + w to_orthogonal * sin theta).

(** The part of [to] orthogonal to [from] at cosine [dot], as a 4-tuple:
    what [DoSlerp] hands to the constructor before normalizing. *)
Definition to_orthogonal_part (from to : t) (dot : R) : t :=
  mk (x to - x from * dot) (y to - y from * dot)
     (z to - z from * dot) (w to - w from * dot).

(** The quaternion [(1, 0, 0, 0)], a half turn about the first axis, is
    the running example of a unit quaternion whose [w] is zero. *)
Definition half_turn_x : t := mk 1 0 0 0.

(** The unit quaternion [(3/5, 0, 0, 4/5)]. *)
Definition q_35_45 : t := mk (3/5) 0 0 (4/5).

(** Two objects for the receiver and the argument: [(1, 0, 0, 1)] at
    reference [0] and [(1, 0, 1, 2)] at reference [1]. *)
Definition two_objects : heap :=
  mkHeap 2%nat (fun r => match r with O => mk 1 0 0 1 | _ => mk 1 0 1 2 end).

(** The squared length of a vector, for the statements on [RotatePoint]. *)
Definition sqr_length (v : Vector3.t) : R :=
  Vector3.x v * Vector3.x v + Vector3.y v * Vector3.y v + Vector3.z v * Vector3.z v.

(** For a unit rotation the matrix of [RotatePoint] is the homogeneous
    one: the [1] on its diagonal is [x*x + y*y + z*z + w*w]. *)
Definition rotate_homogeneous (q : t) (p : Vector3.t) : Vector3.t :=
  Vector3.mk
    ((w q * w q + x q * x q - y q * y q - z q * z q) * Vector3.x p
     + 2 * (x q * y q - w q * z q) * Vector3.y p
     + 2 * (x q * z q + w q * y q) * Vector3.z p)
    (2 * (x q * y q + w q * z q) * Vector3.x p
     + (w q * w q - x q * x q + y q * y q - z q * z q) * Vector3.y p
     + 2 * (y q * z q - w q * x q) * Vector3.z p)
    (2 * (x q * z q - w q * y q) * Vector3.x p
     + 2 * (y q * z q + w q * x q) * Vector3.y p
     + (w q * w q - x q * x q - y q * y q + z q * z q) * Vector3.z p).

(** The Hamilton product as a 4-tuple, before the constructor. *)
Definition hamilton (lhs rhs : t) : t :=
  mk (w lhs * x rhs + x lhs * w rhs + y lhs * z rhs - z lhs * y rhs)
     (w lhs * y rhs + y lhs * w rhs + z lhs * x rhs - x lhs * z rhs)
     (w lhs * z rhs + z lhs * w rhs + x lhs * y rhs - y lhs * x rhs)
     (w lhs * w rhs - x lhs * x rhs - y lhs * y rhs - z lhs * z rhs).

(** The [w] that [Euler] hands to the constructor. *)
Definition Euler_w (v : Vector3.t) : R :=
  cos (Vector3.z v / 2) * cos (Vector3.y v / 2) * cos (Vector3.x v / 2)
  + sin (Vector3.z v / 2) * sin (Vector3.y v / 2) * sin (Vector3.x v / 2).

(** ** The constructor *)

(** With its four arguments given, the constructor keeps [x], [y] and [z]
    (a zero argument and the initial zero coincide) and replaces a zero
    [w] by the initial [1]. *)
Lemma new_eq (vx vy vz vw : R) :
  new vx vy vz vw = mk vx vy vz (if Req_dec_T vw 0 then 1 else vw).
Proof.
  unfold new, constructor, truthy, arg, initial, set_x, set_y, set_z, set_w.
  destruct (Req_dec_T vx 0), (Req_dec_T vy 0), (Req_dec_T vz 0),
    (Req_dec_T vw 0); subst; reflexivity.
Qed.

Lemma new_nonzero (vx vy vz vw : R) :
  vw <> 0 -> new vx vy vz vw = mk vx vy vz vw.
Proof.
  intros Hw. rewrite new_eq. destruct (Req_dec_T vw 0); [contradiction | reflexivity].
Qed.

Lemma new_zero (vx vy vz : R) : new vx vy vz 0 = mk vx vy vz 1.
Proof.
  rewrite new_eq. destruct (Req_dec_T 0 0) as [_ | H]; [reflexivity | now elim H].
Qed.

Lemma w_new_nonzero (vx vy vz vw : R) : w (new vx vy vz vw) <> 0.
Proof.
  rewrite new_eq; simpl. destruct (Req_dec_T vw 0); [lra | assumption].
Qed.

Lemma identity_eq : identity = mk 0 0 0 1.
Proof. unfold identity. apply new_nonzero. lra. Qed.

Lemma truthy_zero : truthy (Some 0) = truthy None.
Proof.
  simpl. destruct (Req_dec_T 0 0) as [_ | H]; [reflexivity | now elim H].
Qed.

(** C4. The constructor treats an argument equal to zero as an argument
    that was not given: in each position, passing [0] builds the same
    quaternion as leaving the parameter out, so the field keeps its
    initial value ([x = 0], [y = 0], [z = 0], [w = 1]).  In particular
    [new Quaternion(0, 1, 0, 0)] has [w = 1] and not [w = 0]. *)
Theorem constructor_zero_is_absent :
  (forall px py pz pw : option R,
      constructor (Some 0) py pz pw = constructor None py pz pw
      /\ constructor px (Some 0) pz pw = constructor px None pz pw
      /\ constructor px py (Some 0) pw = constructor px py None pw
      /\ constructor px py pz (Some 0) = constructor px py pz None
      /\ x (constructor (Some 0) py pz pw) = 0
      /\ y (constructor px (Some 0) pz pw) = 0
      /\ z (constructor px py (Some 0) pw) = 0
      /\ w (constructor px py pz (Some 0)) = 1)
  /\ new 0 1 0 0 = mk 0 1 0 1
  /\ w (new 0 1 0 0) = 1
  /\ w (new 0 1 0 0) <> 0.
Proof.
  split.
  - intros px py pz pw. unfold constructor. rewrite truthy_zero. simpl truthy at 1.
    repeat split; try reflexivity;
      destruct (truthy px), (truthy py), (truthy pz), (truthy pw); reflexivity.
  - rewrite new_zero. simpl. repeat split; lra.
Qed.

(** ** Magnitude *)

Lemma Dot_self_nonneg (q : t) : 0 <= Dot q q.
Proof. unfold Dot. nra. Qed.

Lemma magnitude_nonneg (q : t) : 0 <= magnitude q.
Proof. apply sqrt_pos. Qed.

Lemma magnitude_pow2 (q : t) : magnitude q ^ 2 = Dot q q.
Proof. unfold magnitude. apply pow2_sqrt, Dot_self_nonneg. Qed.

Lemma magnitude_unit (q : t) : magnitude q = 1 <-> Dot q q = 1.
Proof.
  split; intros H.
  - rewrite <- magnitude_pow2, H. ring.
  - unfold magnitude. rewrite H. apply sqrt_1.
Qed.

Lemma magnitude_mk_unit (vx vy vz vw : R) :
  vx * vx + vy * vy + vz * vz + vw * vw = 1 -> magnitude (mk vx vy vz vw) = 1.
Proof. intros H. apply magnitude_unit. exact H. Qed.

(** Dividing the four components by the magnitude gives magnitude one. *)
Lemma magnitude_scaled (q : t) :
  0 < magnitude q ->
  magnitude (mk (x q / magnitude q) (y q / magnitude q)
                (z q / magnitude q) (w q / magnitude q)) = 1.
Proof.
  intros Hm. apply magnitude_mk_unit.
  pose proof (magnitude_pow2 q) as Hq. unfold Dot in Hq.
  assert (Hne : magnitude q <> 0) by lra.
  replace (x q / magnitude q * (x q / magnitude q) +
           y q / magnitude q * (y q / magnitude q) +
           z q / magnitude q * (z q / magnitude q) +
           w q / magnitude q * (w q / magnitude q))
    with ((x q * x q + y q * y q + z q * z q + w q * w q) / magnitude q ^ 2)
    by (field; exact Hne).
  rewrite <- Hq. field. exact Hne.
Qed.

(** ** [normalized] *)

Lemma normalized_pos (q : t) :
  0 < magnitude q ->
  normalized q =
  new (x q / magnitude q) (y q / magnitude q) (z q / magnitude q) (w q / magnitude q).
Proof.
  intros Hm. unfold normalized.
  destruct (Rgt_dec (magnitude q) 0) as [_ | Hn]; [reflexivity | exfalso; lra].
Qed.

Lemma normalized_zero (q : t) : magnitude q = 0 -> normalized q = identity.
Proof.
  intros Hm. unfold normalized.
  destruct (Rgt_dec (magnitude q) 0) as [Hp | _]; [exfalso; lra | reflexivity].
Qed.

Lemma div_nonzero (a b : R) : a <> 0 -> b <> 0 -> a / b <> 0.
Proof.
  intros Ha Hb Hq. apply Ha.
  replace a with (a / b * b) by (field; exact Hb). rewrite Hq. ring.
Qed.

(** Away from [w = 0] the getter divides the four components by the
    magnitude. *)
Lemma normalized_nonzero_w (q : t) :
  0 < magnitude q -> w q <> 0 ->
  normalized q =
  mk (x q / magnitude q) (y q / magnitude q) (z q / magnitude q) (w q / magnitude q).
Proof.
  intros Hm Hw. rewrite (normalized_pos q Hm).
  apply new_nonzero, div_nonzero; lra.
Qed.

(** At [w = 0] the quotient [w / mag] is zero, and the constructor puts
    its initial [1] in its place. *)
Lemma normalized_zero_w (q : t) :
  0 < magnitude q -> w q = 0 ->
  normalized q =
  mk (x q / magnitude q) (y q / magnitude q) (z q / magnitude q) 1.
Proof.
  intros Hm Hw. rewrite (normalized_pos q Hm), Hw.
  replace (0 / magnitude q) with 0 by (field; lra).
  apply new_zero.
Qed.

Lemma magnitude_normalized (q : t) :
  0 < magnitude q -> w q <> 0 -> magnitude (normalized q) = 1.
Proof.
  intros Hm Hw. rewrite (normalized_nonzero_w q Hm Hw).
  apply magnitude_scaled, Hm.
Qed.

Lemma magnitude_half_turn_x : magnitude half_turn_x = 1.
Proof. apply magnitude_mk_unit. ring. Qed.

Lemma normalized_half_turn_x : normalized half_turn_x = mk 1 0 0 1.
Proof.
  rewrite normalized_zero_w; rewrite ?magnitude_half_turn_x; simpl; try lra.
  f_equal; field.
Qed.

Lemma sqrt2_neq_1 : sqrt 2 <> 1.
Proof.
  intros H1.
  assert (H2 : sqrt 2 * sqrt 2 = 2) by (apply sqrt_sqrt; lra).
  rewrite H1 in H2. lra.
Qed.

Lemma magnitude_1001 : magnitude (mk 1 0 0 1) = sqrt 2.
Proof. unfold magnitude, Dot; simpl. f_equal. ring. Qed.

(** C5 on the quaternion [(1, 0, 0, 0)], whose magnitude is [1]: the
    getter returns [(1, 0, 0, 1)], which is not the componentwise quotient
    [(1/1, 0/1, 0/1, 0/1)] and whose magnitude is [sqrt 2], not [1]. *)
Theorem normalized_at_zero_w :
  magnitude half_turn_x = 1
  /\ normalized half_turn_x = mk 1 0 0 1
  /\ normalized half_turn_x
     <> mk (x half_turn_x / magnitude half_turn_x)
           (y half_turn_x / magnitude half_turn_x)
           (z half_turn_x / magnitude half_turn_x)
           (w half_turn_x / magnitude half_turn_x)
  /\ magnitude (normalized half_turn_x) = sqrt 2.
Proof.
  repeat split.
  - exact magnitude_half_turn_x.
  - exact normalized_half_turn_x.
  - rewrite normalized_half_turn_x, magnitude_half_turn_x.
    intros Heq. apply (f_equal w) in Heq. simpl in Heq. lra.
  - rewrite normalized_half_turn_x. exact magnitude_1001.
Qed.

(** C10. A quaternion of positive magnitude whose [w] is not zero has a
    [normalized] of magnitude exactly [1]; and the hypothesis on [w] is
    needed: [(1, 0, 0, 0)] has positive magnitude and [w = 0], the
    constructor replaces the computed [w = 0] by its initial [1], and the
    result has a magnitude other than [1]. *)
Theorem normalized_unit :
  (forall q : t, 0 < magnitude q -> w q <> 0 -> magnitude (normalized q) = 1)
  /\ (exists q : t,
         0 < magnitude q /\ w q = 0
         /\ w (normalized q) = 1 /\ magnitude (normalized q) <> 1).
Proof.
  split.
  - exact magnitude_normalized.
  - exists half_turn_x. rewrite normalized_half_turn_x, magnitude_half_turn_x.
    repeat split; simpl; try lra.
    rewrite magnitude_1001. exact sqrt2_neq_1.
Qed.

Lemma normalized_unit_witness :
  0 < magnitude (mk 3 0 0 4) /\ w (mk 3 0 0 4) <> 0
  /\ magnitude (normalized (mk 3 0 0 4)) = 1.
Proof.
  assert (Hm : 0 < magnitude (mk 3 0 0 4)).
  { unfold magnitude. apply sqrt_lt_R0. unfold Dot; simpl. lra. }
  assert (Hw : w (mk 3 0 0 4) <> 0) by (simpl; lra).
  split; [exact Hm | split; [exact Hw |]].
  exact (proj1 normalized_unit (mk 3 0 0 4) Hm Hw).
Defined.

(** ** [sqrMagnitude] *)

Lemma sqrMagnitude_pow4 (q : t) : sqrMagnitude q ^ 4 = Dot q q.
Proof.
  unfold sqrMagnitude.
  replace (sqrt (magnitude q) ^ 4) with ((sqrt (magnitude q) ^ 2) ^ 2) by ring.
  rewrite pow2_sqrt by apply magnitude_nonneg.
  apply magnitude_pow2.
Qed.

(** C9. [sqrMagnitude] is the square root of the magnitude, that is the
    fourth root of [x*x + y*y + z*z + w*w] (the non-negative number whose
    fourth power is that sum), and it is not the squared magnitude
    [Dot q q]: on [(0, 0, 0, 2)] the two differ. *)
Theorem sqrMagnitude_is_sqrt_magnitude :
  (forall q : t,
      sqrMagnitude q = sqrt (magnitude q)
      /\ sqrMagnitude q = sqrt (sqrt (x q * x q + y q * y q + z q * z q + w q * w q))
      /\ 0 <= sqrMagnitude q
      /\ sqrMagnitude q ^ 4 = x q * x q + y q * y q + z q * z q + w q * w q)
  /\ (exists q : t, sqrMagnitude q <> Dot q q).
Proof.
  split.
  - intros q. repeat split.
    + apply sqrt_pos.
    + exact (sqrMagnitude_pow4 q).
  - exists (mk 0 0 0 2). intros H.
    pose proof (sqrMagnitude_pow4 (mk 0 0 0 2)) as H4.
    rewrite H in H4. unfold Dot in H4; simpl in H4. lra.
Qed.

(** ** [conjugate] and [inverse] *)

Lemma conjugate_nonzero_w (q : t) :
  w q <> 0 -> conjugate q = mk (- x q) (- y q) (- z q) (w q).
Proof. intros Hw. unfold conjugate. apply new_nonzero, Hw. Qed.

Lemma conjugate_zero_w (q : t) :
  w q = 0 -> conjugate q = mk (- x q) (- y q) (- z q) 1.
Proof. intros Hw. unfold conjugate. rewrite Hw. apply new_zero. Qed.

Lemma inverse_nonzero_w (q : t) :
  magnitude q <> 0 -> w q <> 0 ->
  inverse q =
  mk (- x q / magnitude q ^ 2) (- y q / magnitude q ^ 2)
     (- z q / magnitude q ^ 2) (w q / magnitude q ^ 2).
Proof.
  intros Hm Hw. unfold inverse. rewrite (conjugate_nonzero_w q Hw). cbn [x y z w].
  apply new_nonzero, div_nonzero; [exact Hw |].
  apply pow_nonzero, Hm.
Qed.

Lemma conjugate_half_turn_x : conjugate half_turn_x = mk (-1) 0 0 1.
Proof.
  rewrite conjugate_zero_w by reflexivity. simpl. f_equal; ring.
Qed.

Lemma inverse_half_turn_x : inverse half_turn_x = mk (-1) 0 0 1.
Proof.
  unfold inverse. rewrite conjugate_half_turn_x, magnitude_half_turn_x. simpl.
  rewrite new_nonzero by lra. f_equal; field.
Qed.

(** C7 on the quaternion [(1, 0, 0, 0)], whose magnitude is [1]: its
    [conjugate] is [(-1, 0, 0, 1)] and not [(-x, -y, -z, w) = (-1, 0, 0, 0)],
    and its [inverse] is [(-1, 0, 0, 1)] and not that conjugate divided by
    the squared magnitude. *)
Theorem conjugate_inverse_at_zero_w :
  magnitude half_turn_x <> 0
  /\ conjugate half_turn_x = mk (-1) 0 0 1
  /\ conjugate half_turn_x
     <> mk (- x half_turn_x) (- y half_turn_x) (- z half_turn_x) (w half_turn_x)
  /\ inverse half_turn_x = mk (-1) 0 0 1
  /\ inverse half_turn_x
     <> mk (- x half_turn_x / magnitude half_turn_x ^ 2)
           (- y half_turn_x / magnitude half_turn_x ^ 2)
           (- z half_turn_x / magnitude half_turn_x ^ 2)
           (w half_turn_x / magnitude half_turn_x ^ 2).
Proof.
  rewrite conjugate_half_turn_x, inverse_half_turn_x, magnitude_half_turn_x.
  repeat split; try lra;
    intros Heq; apply (f_equal w) in Heq; simpl in Heq; lra.
Qed.

(** ** [Multiply] and the identity *)

Lemma Multiply_identity_r (q : t) :
  Multiply q identity = new (x q) (y q) (z q) (w q).
Proof.
  unfold Multiply. rewrite identity_eq. simpl. f_equal; ring.
Qed.

Lemma Multiply_identity_l (q : t) :
  Multiply identity q = new (x q) (y q) (z q) (w q).
Proof.
  unfold Multiply. rewrite identity_eq. simpl. f_equal; ring.
Qed.

Lemma new_fields_nonzero_w (q : t) :
  w q <> 0 -> new (x q) (y q) (z q) (w q) = q.
Proof. intros Hw. rewrite new_nonzero by exact Hw. now destruct q. Qed.

(** Away from [w = 0] the identity is neutral on both sides, for a
    quaternion of any magnitude. *)
Lemma Multiply_identity_nonzero_w (q : t) :
  w q <> 0 -> Multiply q identity = q /\ Multiply identity q = q.
Proof.
  intros Hw. rewrite Multiply_identity_r, Multiply_identity_l.
  split; apply new_fields_nonzero_w, Hw.
Qed.

(** C3 on the unit quaternion [(1, 0, 0, 0)]: both products with the
    identity are [(1, 0, 0, 1)], whose [w] is off by one. *)
Theorem Multiply_identity_at_zero_w :
  magnitude half_turn_x = 1
  /\ Multiply half_turn_x identity = mk 1 0 0 1
  /\ Multiply identity half_turn_x = mk 1 0 0 1
  /\ Multiply half_turn_x identity <> half_turn_x
  /\ Multiply identity half_turn_x <> half_turn_x
  /\ w (Multiply half_turn_x identity) - w half_turn_x = 1.
Proof.
  rewrite Multiply_identity_r, Multiply_identity_l. simpl.
  rewrite new_zero. simpl.
  repeat split; try lra; try exact magnitude_half_turn_x;
    intros Heq; apply (f_equal w) in Heq; simpl in Heq; lra.
Qed.

(** ** The mutating instance methods against the static ones *)

Lemma read_write_same (h : heap) (r : ref) (q : t) : read (write h r q) r = q.
Proof. unfold read, write; simpl. now rewrite Nat.eqb_refl. Qed.

Lemma read_write_other (h : heap) (r r' : ref) (q : t) :
  r' <> r -> read (write h r q) r' = read h r'.
Proof.
  intros Hne. unfold read, write; simpl.
  destruct (Nat.eqb_spec r' r); [contradiction | reflexivity].
Qed.

Ltac heap_simpl :=
  repeat first
    [ rewrite read_write_same
    | rewrite read_write_other by (assumption || (apply not_eq_sym; assumption)) ].

(** [Inst.Add] leaves the componentwise sum in the receiver, whether or
    not the argument is the receiver itself, and touches no other object. *)
Lemma Inst_Add_receiver (h : heap) (this other : ref) :
  read (Inst.Add this other h) this =
  mk (x (read h this) + x (read h other)) (y (read h this) + y (read h other))
     (z (read h this) + z (read h other)) (w (read h this) + w (read h other)).
Proof.
  unfold Inst.Add. cbv zeta.
  destruct (Nat.eq_dec other this) as [-> | Hne]; heap_simpl; reflexivity.
Qed.

Lemma Inst_Subtract_receiver (h : heap) (this other : ref) :
  read (Inst.Subtract this other h) this =
  mk (x (read h this) - x (read h other)) (y (read h this) - y (read h other))
     (z (read h this) - z (read h other)) (w (read h this) - w (read h other)).
Proof.
  unfold Inst.Subtract. cbv zeta.
  destruct (Nat.eq_dec other this) as [-> | Hne]; heap_simpl; reflexivity.
Qed.

(** The receiver after [Inst.Multiply] on an argument that is another
    object: each component after the first is computed from the components
    already overwritten ([x'] in [y'], [x'] and [y'] in [z'], the three of
    them in [w']). *)
Lemma Inst_Multiply_receiver (h : heap) (this other : ref) :
  other <> this ->
  let a := read h this in
  let b := read h other in
  let x' := w a * x b + x a * w b + y a * z b - z a * y b in
  let y' := w a * y b + y a * w b + z a * x b - x' * z b in
  let z' := w a * z b + z a * w b + x' * y b - y' * x b in
  let w' := w a * w b - x' * x b - y' * y b - z' * z b in
  read (Inst.Multiply this other h) this = mk x' y' z' w'.
Proof.
  intros Hne. unfold Inst.Multiply. cbv zeta. heap_simpl. reflexivity.
Qed.

Lemma Inst_Multiply_frame (h : heap) (this other r : ref) :
  r <> this -> read (Inst.Multiply this other h) r = read h r.
Proof.
  intros Hne. unfold Inst.Multiply. cbv zeta. heap_simpl. reflexivity.
Qed.

(** With the identity as argument the instance method leaves the
    receiver as it was, also when the receiver's [w] is zero. *)
Lemma Inst_Multiply_identity (h : heap) (this other : ref) :
  other <> this -> read h other = mk 0 0 0 1 ->
  read (Inst.Multiply this other h) this = read h this.
Proof.
  intros Hne Hid. rewrite (Inst_Multiply_receiver h this other Hne). cbv zeta.
  rewrite Hid. destruct (read h this) as [ax ay az aw]. cbn [x y z w].
  f_equal; ring.
Qed.

(** The getter [inverse] on an object of the heap allocates two
    objects, the conjugate and then the inverse, and leaves the objects
    of the heap as they were. *)
Lemma Inst_inverse_heap (h : heap) (this : ref) :
  (this < next h)%nat ->
  fst (Inst.inverse this h) = S (next h)
  /\ next (snd (Inst.inverse this h)) = S (S (next h))
  /\ read (snd (Inst.inverse this h)) (next h) = conjugate (read h this)
  /\ read (snd (Inst.inverse this h)) (S (next h)) = inverse (read h this)
  /\ (forall r : ref, (r < next h)%nat ->
        read (snd (Inst.inverse this h)) r = read h r).
Proof.
  intros Hlt. unfold Inst.inverse, Inst.conjugate, alloc, read.
  cbn [fst snd next objs].
  rewrite Nat.eqb_refl.
  destruct (Nat.eqb_spec this (next h)) as [Heq | _]; [exfalso; lia |].
  destruct (Nat.eqb_spec (next h) (S (next h))) as [Heq | _]; [exfalso; lia |].
  rewrite Nat.eqb_refl.
  split; [reflexivity | split; [reflexivity | split; [reflexivity | split]]].
  - reflexivity.
  - intros r Hr.
    destruct (Nat.eqb_spec r (S (next h))) as [Heq | _]; [exfalso; lia |].
    destruct (Nat.eqb_spec r (next h)) as [Heq | _]; [exfalso; lia |].
    reflexivity.
Qed.

Lemma Inst_Divide_eq (h : heap) (this other : ref) :
  Inst.Divide this other h
  = Inst.Multiply this (fst (Inst.inverse other h)) (snd (Inst.inverse other h)).
Proof. unfold Inst.Divide. destruct (Inst.inverse other h). reflexivity. Qed.

(** [Inst.Divide] on a receiver and an argument that are objects of the
    heap: the inverse of the argument is a fresh object, and the receiver
    is overwritten as by [Inst.Multiply]. *)
Lemma Inst_Divide_receiver (h : heap) (this other : ref) :
  (this < next h)%nat -> (other < next h)%nat ->
  let a := read h this in
  let b := inverse (read h other) in
  let x' := w a * x b + x a * w b + y a * z b - z a * y b in
  let y' := w a * y b + y a * w b + z a * x b - x' * z b in
  let z' := w a * z b + z a * w b + x' * y b - y' * x b in
  let w' := w a * w b - x' * x b - y' * y b - z' * z b in
  read (Inst.Divide this other h) this = mk x' y' z' w'.
Proof.
  intros Hlt Hlo. rewrite Inst_Divide_eq.
  destruct (Inst_inverse_heap h other Hlo) as (Hr & _ & _ & Hinv & Hold).
  rewrite Inst_Multiply_receiver by (rewrite Hr; lia).
  rewrite Hr, Hinv, (Hold this Hlt). reflexivity.
Qed.

(** C6 on the receiver [(1, 0, 0, 1)] and the argument [(1, 0, 1, 2)]:
    the static product is [(3, -1, 1, 1)], the receiver after the instance
    method is [(3, -3, 4, -5)], and the argument is unchanged. *)
Theorem Inst_Multiply_differs_from_static :
  Multiply (read two_objects 0%nat) (read two_objects 1%nat) = mk 3 (-1) 1 1
  /\ read (Inst.Multiply 0%nat 1%nat two_objects) 0%nat = mk 3 (-3) 4 (-5)
  /\ read (Inst.Multiply 0%nat 1%nat two_objects) 1%nat = read two_objects 1%nat
  /\ read (Inst.Multiply 0%nat 1%nat two_objects) 0%nat
     <> Multiply (read two_objects 0%nat) (read two_objects 1%nat).
Proof.
  assert (Hs : Multiply (read two_objects 0%nat) (read two_objects 1%nat)
               = mk 3 (-1) 1 1).
  { unfold Multiply, read, two_objects; cbn [objs x y z w].
    rewrite new_nonzero by lra. f_equal; ring. }
  assert (Hi : read (Inst.Multiply 0%nat 1%nat two_objects) 0%nat
               = mk 3 (-3) 4 (-5)).
  { rewrite Inst_Multiply_receiver by discriminate.
    unfold read, two_objects; cbn [objs x y z w]. f_equal; ring. }
  split; [exact Hs | split; [exact Hi | split]].
  - apply Inst_Multiply_frame. discriminate.
  - rewrite Hs, Hi. intros Heq. apply (f_equal y) in Heq. simpl in Heq. lra.
Qed.

(** ** Interpolation *)

Lemma DoSlerp_eq (from to : t) (t_ : R) :
  DoSlerp from to t_ =
  if Rlt_dec (Dot from to) 0
  then interpolate from (new (- x to) (- y to) (- z to) (- w to)) (- Dot from to) t_
  else interpolate from to (Dot from to) t_.
Proof.
  unfold DoSlerp, interpolate. destruct (Rlt_dec (Dot from to) 0); reflexivity.
Qed.

Lemma Slerp_inside (from to : t) (t_ : R) :
  0 <= t_ <= 1 -> Slerp from to t_ = DoSlerp from to t_.
Proof.
  intros [H0 H1]. unfold Slerp.
  destruct (Rlt_dec t_ 0); [exfalso; lra |].
  destruct (Rgt_dec t_ 1); [exfalso; lra | reflexivity].
Qed.

Lemma new_negated (q : t) :
  w q <> 0 -> new (- x q) (- y q) (- z q) (- w q) = negated q.
Proof. intros Hw. apply new_nonzero. lra. Qed.

Lemma magnitude_negated (q : t) : magnitude (negated q) = magnitude q.
Proof. unfold magnitude, Dot, negated; simpl. f_equal. ring. Qed.

Lemma Dot_negated_r (a b : t) : Dot a (negated b) = - Dot a b.
Proof. unfold Dot, negated; simpl. ring. Qed.

Lemma normalized_of_unit (q : t) :
  magnitude q = 1 -> w q <> 0 -> normalized q = q.
Proof.
  intros Hm Hw. rewrite normalized_nonzero_w by (rewrite ?Hm; lra || exact Hw).
  rewrite Hm. destruct q; simpl. f_equal; field.
Qed.

(** At [t = 0] the interpolation gives back a [from] whose [w] is not
    zero, whatever [to] is: in the trigonometric branch as it is, in the
    near-parallel branch normalized, so there [from] is to be of
    magnitude [1]. *)
Lemma interpolate_0_branches (from to : t) (dot : R) :
  w from <> 0 -> (dot > DOT_THRESHOLD -> magnitude from = 1) ->
  interpolate from to dot 0 = from.
Proof.
  intros Hw Hm. unfold interpolate.
  destruct (Rgt_dec dot DOT_THRESHOLD) as [Hgt | _].
  - specialize (Hm Hgt).
    replace (x from + 0 * (x to - x from)) with (x from) by ring.
    replace (y from + 0 * (y to - y from)) with (y from) by ring.
    replace (z from + 0 * (z to - z from)) with (z from) by ring.
    replace (w from + 0 * (w to - w from)) with (w from) by ring.
    rewrite new_fields_nonzero_w by exact Hw.
    apply normalized_of_unit; assumption.
  - cbv zeta. rewrite Rmult_0_r, cos_0, sin_0.
    set (o := normalized _).
    replace (x from * 1 + x o * 0) with (x from) by ring.
    replace (y from * 1 + y o * 0) with (y from) by ring.
    replace (z from * 1 + z o * 0) with (z from) by ring.
    replace (w from * 1 + w o * 0) with (w from) by ring.
    apply new_fields_nonzero_w, Hw.
Qed.


(** The part of [to] orthogonal to [from], for unit quaternions at
    cosine [dot]: its squared length is [1 - dot * dot]. *)
Lemma Dot_orthogonal_part (from to : t) :
  Dot from from = 1 -> Dot to to = 1 ->
  let dot := Dot from to in
  let v := mk (x to - x from * dot) (y to - y from * dot)
              (z to - z from * dot) (w to - w from * dot) in
  Dot v v = 1 - dot * dot.
Proof.
  intros Hf Ht dot v. subst v. unfold Dot at 1. cbn [x y z w].
  replace ((x to - x from * dot) * (x to - x from * dot) +
           (y to - y from * dot) * (y to - y from * dot) +
           (z to - z from * dot) * (z to - z from * dot) +
           (w to - w from * dot) * (w to - w from * dot))
    with (Dot to to - 2 * dot * Dot from to + dot * dot * Dot from from)
    by (unfold Dot; ring).
  rewrite Hf, Ht. subst dot. ring.
Qed.

(** At [t = 1] the interpolation reaches a unit [to] at a non-negative
    cosine, provided no [w] handed to the constructor is zero; [from] is
    to be of magnitude [1] in the trigonometric branch only. *)
Lemma interpolate_1_branches (from to : t) :
  magnitude to = 1 ->
  0 <= Dot from to ->
  w to <> 0 ->
  (Dot from to <= DOT_THRESHOLD ->
   magnitude from = 1 /\ w to <> w from * Dot from to) ->
  interpolate from to (Dot from to) 1 = to.
Proof.
  intros Ht Hd Hw Hfv. unfold interpolate.
  destruct (Rgt_dec (Dot from to) DOT_THRESHOLD) as [Hgt | Hle].
  - replace (x from + 1 * (x to - x from)) with (x to) by ring.
    replace (y from + 1 * (y to - y from)) with (y to) by ring.
    replace (z from + 1 * (z to - z from)) with (z to) by ring.
    replace (w from + 1 * (w to - w from)) with (w to) by ring.
    rewrite new_fields_nonzero_w by exact Hw.
    apply normalized_of_unit; assumption.
  - assert (Hle' : Dot from to <= DOT_THRESHOLD) by lra.
    destruct (Hfv Hle') as [Hf Hv]. unfold DOT_THRESHOLD in Hle'.
    set (dot := Dot from to) in *.
    cbv zeta. rewrite Rmult_1_r.
    rewrite (new_nonzero _ _ _ (w to - w from * dot)) by lra.
    set (v := mk _ _ _ _).
    assert (Hvv : Dot v v = 1 - dot * dot).
    { apply magnitude_unit in Hf. apply magnitude_unit in Ht.
      exact (Dot_orthogonal_part from to Hf Ht). }
    assert (Hpos : 0 < 1 - dot * dot) by nra.
    assert (Hmv : magnitude v = sqrt (1 - dot * dot)).
    { unfold magnitude. now rewrite Hvv. }
    assert (Hmpos : 0 < magnitude v).
    { rewrite Hmv. apply sqrt_lt_R0, Hpos. }
    rewrite (normalized_nonzero_w v Hmpos) by (subst v; simpl; lra).
    rewrite cos_acos by lra.
    rewrite sin_acos by lra.
    replace (dot²) with (dot * dot) by (unfold Rsqr; ring).
    rewrite <- Hmv.
    assert (Hm0 : magnitude v <> 0) by lra.
    generalize dependent (magnitude v). intros m _ _ Hm0.
    subst v. cbn [x y z w].
    transitivity (new (x to) (y to) (z to) (w to));
      [f_equal; field; exact Hm0 | apply new_fields_nonzero_w, Hw].
Qed.


(** *** Algebra of [Dot] *)

Lemma Dot_combination (a b : t) (c s : R) :
  let r := mk (x a * c + x b * s) (y a * c + y b * s)
              (z a * c + z b * s) (w a * c + w b * s) in
  Dot r r = c * c * Dot a a + 2 * (c * s) * Dot a b + s * s * Dot b b.
Proof. unfold Dot; simpl. ring. Qed.

Lemma Dot_scaled_r (a v : t) (m : R) :
  m <> 0 ->
  Dot a (mk (x v / m) (y v / m) (z v / m) (w v / m)) = Dot a v / m.
Proof. intros Hm. unfold Dot; simpl. field. exact Hm. Qed.

Lemma Dot_orthogonal_part_l (from to : t) (dot : R) :
  Dot from (mk (x to - x from * dot) (y to - y from * dot)
               (z to - z from * dot) (w to - w from * dot))
  = Dot from to - dot * Dot from from.
Proof. unfold Dot; simpl. ring. Qed.

Lemma Dot_lerp (from to : t) (t_ : R) :
  let r := mk (x from + t_ * (x to - x from)) (y from + t_ * (y to - y from))
              (z from + t_ * (z to - z from)) (w from + t_ * (w to - w from)) in
  Dot r r = (1 - t_) * (1 - t_) * Dot from from
            + 2 * (t_ * (1 - t_)) * Dot from to + t_ * t_ * Dot to to.
Proof. unfold Dot; simpl. ring. Qed.

Lemma magnitude_pos_of_Dot (q : t) : 0 < Dot q q -> 0 < magnitude q.
Proof. intros H. unfold magnitude. apply sqrt_lt_R0, H. Qed.

Lemma magnitude_normalize_spec (q : t) :
  0 < Dot q q -> magnitude (normalize_spec q) = 1.
Proof.
  intros Hq. pose proof (magnitude_pos_of_Dot q Hq) as Hm.
  unfold normalize_spec.
  destruct (Rgt_dec (magnitude q) 0) as [_ | Hn]; [| exfalso; lra].
  apply magnitude_scaled, Hm.
Qed.

(** One step of the rotation from a unit [from] towards a unit direction
    orthogonal to it keeps the magnitude. *)
Lemma magnitude_rotation (from o : t) (theta : R) :
  Dot from from = 1 -> Dot o o = 1 -> Dot from o = 0 ->
  magnitude (mk (x from * cos theta + x o * sin theta)
                (y from * cos theta + y o * sin theta)
                (z from * cos theta + z o * sin theta)
                (w from * cos theta + w o * sin theta)) = 1.
Proof.
  intros Hf Ho Hfo. apply magnitude_unit.
  rewrite (Dot_combination from o (cos theta) (sin theta)), Hf, Ho, Hfo.
  pose proof (sin2_cos2 theta) as Hsc. unfold Rsqr in Hsc. lra.
Qed.

(** The normalized orthogonal part of a unit [to], at a cosine [dot] with
    [dot * dot < 1], is a unit quaternion orthogonal to the unit [from]. *)
Lemma orthogonal_direction (from to : t) :
  Dot from from = 1 -> Dot to to = 1 ->
  Dot from to * Dot from to < 1 ->
  let dot := Dot from to in
  let v := mk (x to - x from * dot) (y to - y from * dot)
              (z to - z from * dot) (w to - w from * dot) in
  let o := mk (x v / magnitude v) (y v / magnitude v)
              (z v / magnitude v) (w v / magnitude v) in
  0 < magnitude v /\ Dot o o = 1 /\ Dot from o = 0.
Proof.
  intros Hf Ht Hlt dot v o.
  assert (Hvv : Dot v v = 1 - dot * dot) by exact (Dot_orthogonal_part from to Hf Ht).
  assert (Hm : 0 < magnitude v).
  { apply magnitude_pos_of_Dot. rewrite Hvv. subst dot. lra. }
  split; [exact Hm | split].
  - apply magnitude_unit. exact (magnitude_scaled v Hm).
  - subst o. rewrite Dot_scaled_r by lra.
    subst v. rewrite Dot_orthogonal_part_l, Hf. subst dot.
    unfold Rdiv. ring.
Qed.

(** The algorithm of the specification does return a unit quaternion on
    unit quaternions, for every [t] between [0] and [1]. *)
Lemma interpolate_spec_unit (from to : t) (t_ : R) :
  magnitude from = 1 -> magnitude to = 1 -> 0 <= Dot from to -> 0 <= t_ <= 1 ->
  magnitude (interpolate_spec from to (Dot from to) t_) = 1.
Proof.
  intros Hf Ht Hd Ht01.
  apply magnitude_unit in Hf. apply magnitude_unit in Ht.
  unfold interpolate_spec.
  destruct (Rgt_dec (Dot from to) DOT_THRESHOLD) as [Hgt | Hle].
  - apply magnitude_normalize_spec.
    rewrite (Dot_lerp from to t_), Hf, Ht.
    unfold DOT_THRESHOLD in Hgt.
    assert (H1 : 0 <= t_ * (1 - t_)) by nra.
    assert (H2 : 0 <= t_ * (1 - t_) * Dot from to) by (apply Rmult_le_pos; lra).
    nra.
  - assert (Hle' : Dot from to <= 9995 / 10000) by (unfold DOT_THRESHOLD in Hle; lra).
    assert (Hlt : Dot from to * Dot from to < 1) by nra.
    destruct (orthogonal_direction from to Hf Ht Hlt) as (Hm & Hoo & Hfo).
    cbv zeta. unfold normalize_spec.
    destruct (Rgt_dec _ 0) as [_ | Hn]; [| exfalso; lra].
    apply magnitude_rotation; assumption.
Qed.

Lemma DoSlerp_spec_unit (from to : t) (t_ : R) :
  magnitude from = 1 -> magnitude to = 1 -> 0 <= t_ <= 1 ->
  magnitude (DoSlerp_spec from to t_) = 1.
Proof.
  intros Hf Ht Ht01. unfold DoSlerp_spec.
  destruct (Rlt_dec (Dot from to) 0) as [Hneg | Hpos].
  - rewrite <- Dot_negated_r. apply interpolate_spec_unit; try assumption.
    + now rewrite magnitude_negated.
    + rewrite Dot_negated_r. lra.
  - apply interpolate_spec_unit; try assumption. lra.
Qed.

(** *** [DoSlerp] against the specification *)

Lemma magnitude_pos_of_w (q : t) : w q <> 0 -> 0 < magnitude q.
Proof.
  intros Hw. apply magnitude_pos_of_Dot. unfold Dot.
  assert (0 < w q * w q) by nra. nra.
Qed.

Lemma normalized_eq_spec (q : t) : w q <> 0 -> normalized q = normalize_spec q.
Proof.
  intros Hw. pose proof (magnitude_pos_of_w q Hw) as Hm.
  rewrite (normalized_nonzero_w q Hm Hw). unfold normalize_spec.
  destruct (Rgt_dec (magnitude q) 0) as [_ | Hn]; [reflexivity | exfalso; lra].
Qed.

(** Whatever it is given, the near-parallel branch returns a unit
    quaternion: the constructor never leaves [w = 0], so the magnitude
    it divides by is positive. *)
Lemma magnitude_normalized_new (vx vy vz vw : R) :
  magnitude (normalized (new vx vy vz vw)) = 1.
Proof.
  pose proof (w_new_nonzero vx vy vz vw) as Hw.
  apply magnitude_normalized; [apply magnitude_pos_of_w |]; exact Hw.
Qed.

(** When no constructor call receives [w = 0], the code computes what
    the specification describes. *)
Lemma interpolate_refines (from to : t) (dot t_ : R) :
  (dot > DOT_THRESHOLD -> w from + t_ * (w to - w from) <> 0) ->
  (~ dot > DOT_THRESHOLD ->
   w to - w from * dot <> 0 /\ w (interpolate_spec from to dot t_) <> 0) ->
  interpolate from to dot t_ = interpolate_spec from to dot t_.
Proof.
  intros Hlerp Hslerp. unfold interpolate, interpolate_spec in *.
  destruct (Rgt_dec dot DOT_THRESHOLD) as [Hgt | Hle].
  - specialize (Hlerp Hgt). rewrite new_nonzero by exact Hlerp.
    apply normalized_eq_spec. exact Hlerp.
  - destruct (Hslerp Hle) as [Hv Hr]. cbv zeta in *.
    rewrite (new_nonzero _ _ _ (w to - w from * dot)) by exact Hv.
    rewrite normalized_eq_spec by exact Hv.
    apply new_nonzero. exact Hr.
Qed.

Lemma DoSlerp_refines_spec (from to : t) (t_ : R) :
  (Dot from to < 0 -> w to <> 0) ->
  (Rabs (Dot from to) > DOT_THRESHOLD ->
   w from + t_ * ((if Rlt_dec (Dot from to) 0 then - w to else w to) - w from) <> 0) ->
  (~ Rabs (Dot from to) > DOT_THRESHOLD -> w to <> w from * Dot from to) ->
  (~ Rabs (Dot from to) > DOT_THRESHOLD -> w (DoSlerp_spec from to t_) <> 0) ->
  DoSlerp from to t_ = DoSlerp_spec from to t_.
Proof.
  intros Hneg Hlerp Hv Hr. rewrite DoSlerp_eq. unfold DoSlerp_spec in *.
  destruct (Rlt_dec (Dot from to) 0) as [Hlt | Hge].
  - rewrite (new_negated to (Hneg Hlt)).
    rewrite (Rabs_left _ Hlt) in *.
    apply interpolate_refines.
    + intros Hgt. exact (Hlerp Hgt).
    + intros Hle. split; [| exact (Hr Hle)].
      specialize (Hv Hle). simpl. lra.
  - rewrite (Rabs_right (Dot from to)) in * by lra.
    apply interpolate_refines.
    + intros Hgt. exact (Hlerp Hgt).
    + intros Hle. split; [| exact (Hr Hle)].
      specialize (Hv Hle). lra.
Qed.

Lemma magnitude_DoSlerp_near_parallel (from to : t) (t_ : R) :
  Rabs (Dot from to) > DOT_THRESHOLD -> magnitude (DoSlerp from to t_) = 1.
Proof.
  intros Hgt. rewrite DoSlerp_eq. unfold interpolate.
  destruct (Rlt_dec (Dot from to) 0) as [Hlt | Hge].
  - rewrite (Rabs_left _ Hlt) in Hgt.
    destruct (Rgt_dec (- Dot from to) DOT_THRESHOLD) as [_ | Hn];
      [apply magnitude_normalized_new | contradiction].
  - rewrite Rabs_right in Hgt by lra.
    destruct (Rgt_dec (Dot from to) DOT_THRESHOLD) as [_ | Hn];
      [apply magnitude_normalized_new | contradiction].
Qed.

(** For unit quaternions and [t] between [0] and [1], the result of
    [DoSlerp] is a unit quaternion in the near-parallel branch, and in the
    other branch as soon as no constructor call receives [w = 0]. *)
Theorem DoSlerp_unit (from to : t) (t_ : R) :
  magnitude from = 1 -> magnitude to = 1 -> 0 <= t_ <= 1 ->
  (~ Rabs (Dot from to) > DOT_THRESHOLD ->
   (Dot from to < 0 -> w to <> 0)
   /\ w to <> w from * Dot from to
   /\ w (DoSlerp_spec from to t_) <> 0) ->
  magnitude (DoSlerp from to t_) = 1.
Proof.
  intros Hf Ht Ht01 Hs.
  destruct (Rgt_dec (Rabs (Dot from to)) DOT_THRESHOLD) as [Hgt | Hle].
  - apply magnitude_DoSlerp_near_parallel, Hgt.
  - destruct (Hs Hle) as (Hneg & Hv & Hr).
    rewrite DoSlerp_refines_spec; try assumption.
    + apply DoSlerp_spec_unit; assumption.
    + intros Hgt. contradiction.
    + intros _. exact Hv.
    + intros _. exact Hr.
Qed.

(** ** [DoSlerp] where the constructor meets a zero [w] *)

Lemma magnitude_q_35_45 : magnitude q_35_45 = 1.
Proof. apply magnitude_mk_unit. field. Qed.

Lemma sqrt_34_pos : 0 < sqrt 34.
Proof. apply sqrt_lt_R0. lra. Qed.

Lemma magnitude_35_0_0_1 : magnitude (mk (3/5) 0 0 1) = sqrt 34 / 5.
Proof.
  unfold magnitude, Dot; cbn [x y z w].
  replace (3 / 5 * (3 / 5) + 0 * 0 + 0 * 0 + 1 * 1) with (34 / (5 * 5)) by field.
  rewrite sqrt_div_alt by lra. rewrite sqrt_square by lra. reflexivity.
Qed.

(** From the identity towards [(3/5, 0, 0, 4/5)], at [t = 1]: the part of
    [to] orthogonal to [from] is [(3/5, 0, 0, 0)], the constructor makes
    it [(3/5, 0, 0, 1)], and the result is neither [to] nor of
    magnitude [1]. *)
Lemma DoSlerp_identity_q_35_45 :
  DoSlerp identity q_35_45 1 = mk (9 / (5 * sqrt 34)) 0 0 (4/5 + 3 / sqrt 34).
Proof.
  pose proof sqrt_34_pos as Hs.
  assert (Hd : Dot (mk 0 0 0 1) q_35_45 = 4/5).
  { unfold Dot, q_35_45; cbn [x y z w]. field. }
  rewrite DoSlerp_eq, identity_eq, Hd.
  destruct (Rlt_dec (4/5) 0) as [Hn | _]; [exfalso; lra |].
  unfold interpolate, DOT_THRESHOLD.
  destruct (Rgt_dec (4/5) (9995/10000)) as [Hn | _]; [exfalso; lra |].
  cbv zeta. unfold q_35_45; cbn [x y z w].
  replace (3 / 5 - 0 * (4 / 5)) with (3 / 5) by field.
  replace (0 - 0 * (4 / 5)) with 0 by field.
  replace (4 / 5 - 1 * (4 / 5)) with 0 by field.
  rewrite new_zero.
  assert (Hm : 0 < magnitude (mk (3/5) 0 0 1)).
  { rewrite magnitude_35_0_0_1. apply Rdiv_lt_0_compat; lra. }
  rewrite (normalized_nonzero_w _ Hm) by (simpl; lra).
  rewrite magnitude_35_0_0_1. cbn [x y z w].
  rewrite Rmult_1_r, cos_acos, sin_acos by lra.
  replace (1 - (4 / 5)²) with (3 / 5 * (3 / 5)) by (unfold Rsqr; field).
  rewrite sqrt_square by lra.
  assert (Hinv : 0 < 1 / (sqrt 34 / 5)).
  { apply Rdiv_lt_0_compat; [lra | apply Rdiv_lt_0_compat; lra]. }
  rewrite new_nonzero by lra.
  f_equal; field; lra.
Qed.

Lemma Dot_DoSlerp_identity_q_35_45 :
  Dot (DoSlerp identity q_35_45 1) (DoSlerp identity q_35_45 1)
  = 1 + 24 / (5 * sqrt 34).
Proof.
  pose proof sqrt_34_pos as Hs.
  assert (H34 : sqrt 34 * sqrt 34 = 34) by (apply sqrt_sqrt; lra).
  rewrite DoSlerp_identity_q_35_45. unfold Dot; cbn [x y z w].
  replace (9 / (5 * sqrt 34) * (9 / (5 * sqrt 34)) + 0 * 0 + 0 * 0 +
           (4 / 5 + 3 / sqrt 34) * (4 / 5 + 3 / sqrt 34))
    with (16 / 25 + 24 / (5 * sqrt 34) + (306 / 25) / (sqrt 34 * sqrt 34))
    by (field; lra).
  rewrite H34. field. lra.
Qed.

(** From [(1, 0, 0, 0)] towards [(0, 1, 0, 0)], at [t = 0]: the last
    constructor call receives [w = 0], and the result is [(1, 0, 0, 1)]. *)
Lemma DoSlerp_half_turns :
  DoSlerp half_turn_x (mk 0 1 0 0) 0 = mk 1 0 0 1.
Proof.
  assert (Hd : Dot half_turn_x (mk 0 1 0 0) = 0).
  { unfold Dot, half_turn_x; cbn [x y z w]. ring. }
  rewrite DoSlerp_eq, Hd.
  destruct (Rlt_dec 0 0) as [Hn | _]; [exfalso; lra |].
  unfold interpolate, DOT_THRESHOLD.
  destruct (Rgt_dec 0 (9995/10000)) as [Hn | _]; [exfalso; lra |].
  cbv zeta. rewrite Rmult_0_r, cos_0, sin_0.
  set (o := normalized _). unfold half_turn_x; cbn [x y z w].
  replace (1 * 1 + x o * 0) with 1 by ring.
  replace (0 * 1 + y o * 0) with 0 by ring.
  replace (0 * 1 + z o * 0) with 0 by ring.
  replace (0 * 1 + w o * 0) with 0 by ring.
  apply new_zero.
Qed.

(** C1 on two pairs of unit quaternions.  From the identity to
    [(3/5, 0, 0, 4/5)] at [t = 1], [DoSlerp] returns
    [(9 / (5 sqrt 34), 0, 0, 4/5 + 3 / sqrt 34)], of squared magnitude
    [1 + 24 / (5 sqrt 34)], which is not what the algorithm of the
    specification returns there; from [(1, 0, 0, 0)] to [(0, 1, 0, 0)] at
    [t = 0] it returns [(1, 0, 0, 1)], of magnitude [sqrt 2].  Neither
    result is a unit quaternion. *)
Theorem DoSlerp_not_unit :
  (magnitude identity = 1 /\ magnitude q_35_45 = 1 /\ 0 <= 1 <= 1
   /\ DoSlerp identity q_35_45 1 = mk (9 / (5 * sqrt 34)) 0 0 (4/5 + 3 / sqrt 34)
   /\ magnitude (DoSlerp identity q_35_45 1) <> 1
   /\ DoSlerp identity q_35_45 1 <> DoSlerp_spec identity q_35_45 1)
  /\ (magnitude half_turn_x = 1 /\ magnitude (mk 0 1 0 0) = 1 /\ 0 <= 0 <= 1
      /\ DoSlerp half_turn_x (mk 0 1 0 0) 0 = mk 1 0 0 1
      /\ magnitude (DoSlerp half_turn_x (mk 0 1 0 0) 0) <> 1).
Proof.
  split.
  - split; [rewrite identity_eq; apply magnitude_mk_unit; ring |].
    split; [exact magnitude_q_35_45 |].
    split; [lra |].
    split; [exact DoSlerp_identity_q_35_45 |].
    assert (Hne : magnitude (DoSlerp identity q_35_45 1) <> 1).
    { intros H1. apply magnitude_unit in H1.
      rewrite Dot_DoSlerp_identity_q_35_45 in H1.
      pose proof sqrt_34_pos as Hs.
      assert (0 < 24 / (5 * sqrt 34)) by (apply Rdiv_lt_0_compat; lra).
      lra. }
    split; [exact Hne |].
    intros Heq. apply Hne. rewrite Heq.
    apply DoSlerp_spec_unit; [| exact magnitude_q_35_45 | lra].
    rewrite identity_eq. apply magnitude_mk_unit. ring.
  - split; [exact magnitude_half_turn_x |].
    split; [apply magnitude_mk_unit; ring |].
    split; [lra |].
    split; [exact DoSlerp_half_turns |].
    rewrite DoSlerp_half_turns, magnitude_1001. exact sqrt2_neq_1.
Qed.

(** ** Termination of the interpolation *)

Lemma returns_ret {A : Type} (a : A) : returns_within (ret a) a 0.
Proof. intros fuel _. exists fuel. split; [reflexivity | lia]. Qed.

Lemma returns_call {A : Type} (m : M A) (v : A) (c : nat) :
  returns_within m v c -> returns_within (call m) v (S c).
Proof.
  intros Hm [| fuel] Hle; [lia |].
  destruct (Hm fuel ltac:(lia)) as (rest & Heq & Hrest).
  exists rest. split; [exact Heq | lia].
Qed.

Lemma returns_bind {A B : Type} (m : M A) (k : A -> M B) (a : A) (b : B)
      (c1 c2 : nat) :
  returns_within m a c1 -> returns_within (k a) b c2 ->
  returns_within (bind m k) b (c1 + c2).
Proof.
  intros Hm Hk fuel Hle.
  destruct (Hm fuel ltac:(lia)) as (rest1 & Heq1 & Hrest1).
  destruct (Hk rest1 ltac:(lia)) as (rest2 & Heq2 & Hrest2).
  exists rest2. unfold bind. rewrite Heq1. split; [exact Heq2 | lia].
Qed.

Lemma returns_weaken {A : Type} (m : M A) (v : A) (c c' : nat) :
  (c <= c')%nat -> returns_within m v c -> returns_within m v c'.
Proof.
  intros Hc Hm fuel Hle.
  destruct (Hm fuel ltac:(lia)) as (rest & Heq & Hrest).
  exists rest. split; [exact Heq | lia].
Qed.

Lemma Run_new (vx vy vz vw : R) :
  returns_within (Run.new vx vy vz vw) (new vx vy vz vw) 1.
Proof. apply returns_call, returns_ret. Qed.

Lemma Run_identity : returns_within Run.identity identity 2.
Proof. apply returns_call, Run_new. Qed.

Lemma Run_Dot (lhs rhs : t) : returns_within (Run.Dot lhs rhs) (Dot lhs rhs) 1.
Proof. apply returns_call, returns_ret. Qed.

Lemma Run_div (a b : R) : b <> 0 -> returns_within (Run.div a b) (a / b) 0.
Proof.
  intros Hb. unfold Run.div.
  destruct (Req_dec_T b 0) as [H0 | _]; [contradiction | apply returns_ret].
Qed.

Lemma Run_Math_cos (a : R) : returns_within (Run.Math_cos a) (cos a) 1.
Proof. apply returns_call, returns_ret. Qed.

Lemma Run_Math_sin (a : R) : returns_within (Run.Math_sin a) (sin a) 1.
Proof. apply returns_call, returns_ret. Qed.

(** [Math.sqrt] is called on a sum of squares only. *)
Lemma Run_magnitude (this : t) :
  returns_within (Run.magnitude this) (magnitude this) 3.
Proof.
  unfold Run.magnitude. apply returns_call.
  apply (returns_bind _ _ (Dot this this) _ 1 1); [apply Run_Dot |].
  unfold Run.Math_sqrt. apply returns_call.
  pose proof (Dot_self_nonneg this) as Hd.
  destruct (Rlt_dec (Dot this this) 0) as [Hn | _];
    [exfalso; lra | apply returns_ret].
Qed.

(** [normalized] divides by the magnitude only after the test
    [mag > 0]. *)
Lemma Run_normalized (this : t) :
  returns_within (Run.normalized this) (normalized this) 6.
Proof.
  unfold Run.normalized, normalized. apply returns_call.
  apply (returns_bind _ _ (magnitude this) _ 3 2); [apply Run_magnitude |].
  cbv zeta. destruct (Rgt_dec (magnitude this) 0) as [Hpos | _].
  - assert (Hm : magnitude this <> 0) by lra.
    apply (returns_bind _ _ (x this / magnitude this) _ 0 2);
      [apply Run_div, Hm |].
    apply (returns_bind _ _ (y this / magnitude this) _ 0 2);
      [apply Run_div, Hm |].
    apply (returns_bind _ _ (z this / magnitude this) _ 0 2);
      [apply Run_div, Hm |].
    apply (returns_bind _ _ (w this / magnitude this) _ 0 2);
      [apply Run_div, Hm |].
    apply (returns_weaken _ _ 1); [lia | apply Run_new].
  - apply Run_identity.
Qed.

(** [Math.acos] is called on a [dot] between [0] and [DOT_THRESHOLD]
    only. *)
Lemma Run_Math_acos (a : R) :
  0 <= a -> ~ a > DOT_THRESHOLD ->
  returns_within (Run.Math_acos a) (acos a) 1.
Proof.
  intros H0 Hle. unfold DOT_THRESHOLD in Hle.
  unfold Run.Math_acos. apply returns_call.
  destruct (Rlt_dec a (-1)) as [Hn | _]; [exfalso; lra |].
  destruct (Rgt_dec a 1) as [Hn | _]; [exfalso; lra | apply returns_ret].
Qed.

(** What [Run.DoSlerp] runs once [to] and [dot] have their final
    values. *)
Lemma Run_interpolate (from to : t) (dot t_ : R) :
  0 <= dot ->
  returns_within
    (if Rgt_dec dot DOT_THRESHOLD then
       result <- Run.new (x from + t_ * (x to - x from))
                         (y from + t_ * (y to - y from))
                         (z from + t_ * (z to - z from))
                         (w from + t_ * (w to - w from)) ;;
       Run.normalized result
     else
       theta_0 <- Run.Math_acos dot ;;
       let theta := theta_0 * t_ in
       v <- Run.new (x to - x from * dot)
                    (y to - y from * dot)
                    (z to - z from * dot)
                    (w to - w from * dot) ;;
       to_orthogonal <- Run.normalized v ;;
       cx <- Run.Math_cos theta ;; sx <- Run.Math_sin theta ;;
       cy <- Run.Math_cos theta ;; sy <- Run.Math_sin theta ;;
       cz <- Run.Math_cos theta ;; sz <- Run.Math_sin theta ;;
       cw <- Run.Math_cos theta ;; sw <- Run.Math_sin theta ;;
       Run.new (x from * cx + x to_orthogonal * sx)
               (y from * cy + y to_orthogonal * sy)
               (z from * cz + z to_orthogonal * sz)
               (w from * cw + w to_orthogonal * sw))
    (interpolate from to dot t_) 17.
Proof.
  intros Hd. unfold interpolate.
  destruct (Rgt_dec dot DOT_THRESHOLD) as [Hgt | Hle].
  - apply (returns_weaken _ _ (1 + 6)); [lia |].
    eapply returns_bind; [apply Run_new | apply Run_normalized].
  - cbv zeta.
    apply (returns_bind _ _ (acos dot) _ 1 16);
      [apply Run_Math_acos; assumption |].
    eapply (returns_bind _ _ _ _ 1 15); [apply Run_new |].
    eapply (returns_bind _ _ _ _ 6 9); [apply Run_normalized |].
    eapply (returns_bind _ _ _ _ 1 8); [apply Run_Math_cos |].
    eapply (returns_bind _ _ _ _ 1 7); [apply Run_Math_sin |].
    eapply (returns_bind _ _ _ _ 1 6); [apply Run_Math_cos |].
    eapply (returns_bind _ _ _ _ 1 5); [apply Run_Math_sin |].
    eapply (returns_bind _ _ _ _ 1 4); [apply Run_Math_cos |].
    eapply (returns_bind _ _ _ _ 1 3); [apply Run_Math_sin |].
    eapply (returns_bind _ _ _ _ 1 2); [apply Run_Math_cos |].
    eapply (returns_bind _ _ _ _ 1 1); [apply Run_Math_sin |].
    apply Run_new.
Qed.

Lemma Run_DoSlerp (from to : t) (t_ : R) :
  returns_within (Run.DoSlerp from to t_) (DoSlerp from to t_) 20.
Proof.
  rewrite DoSlerp_eq. unfold Run.DoSlerp. apply returns_call.
  apply (returns_bind _ _ (Dot from to) _ 1 18); [apply Run_Dot |].
  destruct (Rlt_dec (Dot from to) 0) as [Hneg | Hpos].
  - apply (returns_bind _ _
             (new (- x to) (- y to) (- z to) (- w to), - Dot from to) _ 1 17).
    + apply (returns_bind _ _ (new (- x to) (- y to) (- z to) (- w to)) _ 1 0);
        [apply Run_new | apply returns_ret].
    + apply Run_interpolate. lra.
  - apply (returns_bind _ _ (to, Dot from to) _ 0 18); [apply returns_ret |].
    apply (returns_weaken _ _ 17); [lia |].
    apply Run_interpolate. lra.
Qed.

(** C8.  [DoSlerp], [SlerpUnclamped] and [Slerp] return for every [from],
    [to] and real [t] (negative, beyond [1], as large as one likes): run
    with their calls counted, on any supply of at least [21] units of
    fuel, they return the quaternion of the embedding and use at most
    [20], [21] and [21] units, a bound that does not depend on [t].  On
    the way no operation is without a result: [Math.sqrt] receives a sum
    of squares, [Math.acos] a number between [0] and [DOT_THRESHOLD], and
    every division a magnitude that passed the test [mag > 0]. *)
Theorem Slerp_total (from to : t) (t_ : R) (fuel : nat) :
  (21 <= fuel)%nat ->
  (exists rest : nat,
      Run.DoSlerp from to t_ fuel = Value (DoSlerp from to t_) rest
      /\ (fuel <= rest + 20)%nat)
  /\ (exists rest : nat,
         Run.SlerpUnclamped from to t_ fuel
         = Value (SlerpUnclamped from to t_) rest
         /\ (fuel <= rest + 21)%nat)
  /\ (exists rest : nat,
         Run.Slerp from to t_ fuel = Value (Slerp from to t_) rest
         /\ (fuel <= rest + 21)%nat).
Proof.
  intros Hfuel. split; [| split].
  - apply (Run_DoSlerp from to t_ fuel). lia.
  - assert (H : returns_within (Run.SlerpUnclamped from to t_)
                               (SlerpUnclamped from to t_) 21)
      by (apply returns_call, Run_DoSlerp).
    apply (H fuel Hfuel).
  - assert (H : returns_within (Run.Slerp from to t_) (Slerp from to t_) 21).
    { unfold Run.Slerp, Slerp. apply returns_call.
      destruct (Rlt_dec t_ 0);
        [apply (returns_weaken _ _ 0); [lia | apply returns_ret] |].
      destruct (Rgt_dec t_ 1);
        [apply (returns_weaken _ _ 0); [lia | apply returns_ret] |].
      apply Run_DoSlerp. }
    apply (H fuel Hfuel).
Qed.

Lemma Slerp_total_witness :
  (exists rest : nat,
      Run.DoSlerp q_35_45 (mk 0 (3/5) 0 (4/5)) 1000 21%nat
      = Value (DoSlerp q_35_45 (mk 0 (3/5) 0 (4/5)) 1000) rest
      /\ (21 <= rest + 20)%nat)
  /\ (exists rest : nat,
         Run.SlerpUnclamped q_35_45 (mk 0 (3/5) 0 (4/5)) 1000 21%nat
         = Value (SlerpUnclamped q_35_45 (mk 0 (3/5) 0 (4/5)) 1000) rest
         /\ (21 <= rest + 21)%nat)
  /\ (exists rest : nat,
         Run.Slerp q_35_45 (mk 0 (3/5) 0 (4/5)) 1000 21%nat
         = Value (Slerp q_35_45 (mk 0 (3/5) 0 (4/5)) 1000) rest
         /\ (21 <= rest + 21)%nat).
Proof.
  apply (Slerp_total q_35_45 (mk 0 (3/5) 0 (4/5)) 1000 21%nat). lia.
Defined.

(** ** What the getters and the interpolation do away from [w = 0] *)

Lemma Multiply_identity_nonzero_w_witness :
  Multiply (mk 3 0 0 4) identity = mk 3 0 0 4
  /\ Multiply identity (mk 3 0 0 4) = mk 3 0 0 4.
Proof.
  apply (Multiply_identity_nonzero_w (mk 3 0 0 4)). simpl. lra.
Defined.

Lemma Inst_Multiply_identity_witness :
  read (Inst.Multiply 0%nat 1%nat
          (mkHeap 2%nat (fun r => match r with O => half_turn_x | _ => mk 0 0 0 1 end)))
       0%nat
  = half_turn_x.
Proof.
  apply (Inst_Multiply_identity
           (mkHeap 2%nat (fun r => match r with O => half_turn_x | _ => mk 0 0 0 1 end))
           0%nat 1%nat).
  - discriminate.
  - reflexivity.
Defined.

(** [normalized] divides the four components by the magnitude when the
    magnitude is positive and [w] is not zero, and is [(0, 0, 0, 1)] when
    the magnitude is zero. *)
Theorem normalized_quotient (q : t) :
  (0 < magnitude q -> w q <> 0 ->
   normalized q =
   mk (x q / magnitude q) (y q / magnitude q) (z q / magnitude q) (w q / magnitude q))
  /\ (magnitude q = 0 -> normalized q = mk 0 0 0 1).
Proof.
  split.
  - apply normalized_nonzero_w.
  - intros Hm. rewrite (normalized_zero q Hm). apply identity_eq.
Qed.

Lemma magnitude_3004 : magnitude (mk 3 0 0 4) = 5.
Proof.
  unfold magnitude, Dot; cbn [x y z w].
  replace (3 * 3 + 0 * 0 + 0 * 0 + 4 * 4) with (5 * 5) by ring.
  apply sqrt_square. lra.
Qed.

Lemma normalized_quotient_witness :
  normalized (mk 3 0 0 4) = mk (3/5) 0 0 (4/5)
  /\ normalized (mk 0 0 0 0) = mk 0 0 0 1.
Proof.
  split.
  - rewrite (proj1 (normalized_quotient (mk 3 0 0 4)));
      rewrite ?magnitude_3004; cbn [x y z w]; try lra.
    f_equal; field.
  - apply (proj2 (normalized_quotient (mk 0 0 0 0))).
    unfold magnitude, Dot; cbn [x y z w].
    replace (0 * 0 + 0 * 0 + 0 * 0 + 0 * 0) with 0 by ring. apply sqrt_0.
Defined.

(** For a quaternion of non-zero magnitude whose [w] is not zero,
    [conjugate] is [(-x, -y, -z, w)] and [inverse] is that conjugate with
    every component divided by the squared magnitude. *)
Theorem conjugate_inverse_nonzero_w (q : t) :
  magnitude q <> 0 -> w q <> 0 ->
  conjugate q = mk (- x q) (- y q) (- z q) (w q)
  /\ inverse q =
     mk (- x q / magnitude q ^ 2) (- y q / magnitude q ^ 2)
        (- z q / magnitude q ^ 2) (w q / magnitude q ^ 2).
Proof.
  intros Hm Hw. split.
  - exact (conjugate_nonzero_w q Hw).
  - exact (inverse_nonzero_w q Hm Hw).
Qed.

Lemma conjugate_inverse_nonzero_w_witness :
  conjugate (mk 3 0 0 4) = mk (- 3) (- 0) (- 0) 4
  /\ inverse (mk 3 0 0 4) =
     mk (- 3 / magnitude (mk 3 0 0 4) ^ 2) (- 0 / magnitude (mk 3 0 0 4) ^ 2)
        (- 0 / magnitude (mk 3 0 0 4) ^ 2) (4 / magnitude (mk 3 0 0 4) ^ 2).
Proof.
  apply (conjugate_inverse_nonzero_w (mk 3 0 0 4)).
  - rewrite magnitude_3004. lra.
  - simpl. lra.
Defined.

(** The instance [Add] and [Subtract] leave in the receiver what the
    static methods return, as long as the resulting [w] is not zero (where
    the static methods, going through the constructor, return [w = 1]). *)
Theorem Inst_Add_Subtract_static (h : heap) (this other : ref) :
  (w (read h this) + w (read h other) <> 0 ->
   read (Inst.Add this other h) this = Add (read h this) (read h other))
  /\ (w (read h this) - w (read h other) <> 0 ->
      read (Inst.Subtract this other h) this = Subtract (read h this) (read h other)).
Proof.
  split; intros Hw.
  - rewrite Inst_Add_receiver. unfold Add. now rewrite new_nonzero.
  - rewrite Inst_Subtract_receiver. unfold Subtract. now rewrite new_nonzero.
Qed.

Lemma Inst_Add_Subtract_static_witness :
  read (Inst.Add 0%nat 1%nat two_objects) 0%nat
  = Add (read two_objects 0%nat) (read two_objects 1%nat)
  /\ read (Inst.Subtract 1%nat 0%nat two_objects) 1%nat
     = Subtract (read two_objects 1%nat) (read two_objects 0%nat).
Proof.
  split.
  - apply (proj1 (Inst_Add_Subtract_static two_objects 0%nat 1%nat)).
    unfold read, two_objects; simpl. lra.
  - apply (proj2 (Inst_Add_Subtract_static two_objects 1%nat 0%nat)).
    unfold read, two_objects; simpl. lra.
Defined.

(** The pair [(3/5, 0, 0, 4/5)], [(0, 3/5, 0, 4/5)] of unit quaternions,
    at cosine [16/25]. *)
Lemma Dot_q_35_45_other : Dot q_35_45 (mk 0 (3/5) 0 (4/5)) = 16 / 25.
Proof. unfold Dot, q_35_45; cbn [x y z w]. field. Qed.

(** In the trigonometric branch of the specification, at a cosine that
    is not negative and for [t] between [0] and [1], the [w] of the result
    is positive when the [w] of [from] and the [w] of the part of [to]
    orthogonal to [from] are: the angle [acos dot * t] stays in the first
    quadrant. *)
Lemma interpolate_spec_w_pos (from to : t) (dot t_ : R) :
  0 <= dot -> ~ dot > DOT_THRESHOLD -> 0 <= t_ <= 1 ->
  0 < w from -> 0 < w to - w from * dot ->
  0 < w (interpolate_spec from to dot t_).
Proof.
  intros Hd Hle [Ht0 Ht1] Hwf Hwv. unfold interpolate_spec.
  destruct (Rgt_dec dot DOT_THRESHOLD) as [Hgt | _]; [contradiction |].
  unfold DOT_THRESHOLD in Hle. cbv zeta.
  pose proof PI_RGT_0 as Hpi.
  assert (HA : 0 <= acos dot <= PI / 2).
  { pose proof (acos_bound dot) as [H0 H1]. split; [exact H0 |].
    destruct (Rle_dec (acos dot) (PI / 2)) as [Hok | Hbig]; [exact Hok |].
    exfalso. assert (Hc : cos (acos dot) < 0) by (apply cos_lt_0; lra).
    rewrite cos_acos in Hc by lra. lra. }
  assert (Hth : 0 <= acos dot * t_ <= PI / 2) by (split; nra).
  assert (Hcos : 0 <= cos (acos dot * t_)) by (apply cos_ge_0; lra).
  assert (Hsin : 0 <= sin (acos dot * t_)) by (apply sin_ge_0; lra).
  pose proof (sin2_cos2 (acos dot * t_)) as Hsc. unfold Rsqr in Hsc.
  set (v := mk (x to - x from * dot) _ _ _).
  assert (Hwv' : w v <> 0) by (subst v; cbn [w]; lra).
  pose proof (magnitude_pos_of_w v Hwv') as Hm.
  unfold normalize_spec.
  destruct (Rgt_dec (magnitude v) 0) as [_ | Hn]; [| exfalso; lra].
  cbn [w]. subst v. cbn [w].
  assert (Hq : 0 < (w to - w from * dot) / magnitude
                 (mk (x to - x from * dot) (y to - y from * dot)
                     (z to - z from * dot) (w to - w from * dot)))
    by (apply Rdiv_lt_0_compat; assumption).
  set (k := _ / magnitude _) in *.
  set (c := cos _) in *. set (sn := sin _) in *.
  destruct (Rle_lt_or_eq_dec 0 c Hcos) as [Hc | Hc].
  - assert (0 < w from * c) by (apply Rmult_lt_0_compat; assumption).
    assert (0 <= k * sn) by (apply Rmult_le_pos; lra). lra.
  - rewrite <- Hc in *. assert (Hs1 : sn = 1) by nra.
    rewrite Hs1. lra.
Qed.

Lemma DoSlerp_spec_q_35_45_w (t_ : R) :
  0 <= t_ <= 1 -> w (DoSlerp_spec q_35_45 (mk 0 (3/5) 0 (4/5)) t_) <> 0.
Proof.
  intros Ht. unfold DoSlerp_spec. cbv zeta. rewrite Dot_q_35_45_other.
  destruct (Rlt_dec (16/25) 0) as [Hn | _]; [exfalso; lra |].
  apply Rgt_not_eq. apply interpolate_spec_w_pos;
    try (unfold DOT_THRESHOLD; lra); try exact Ht;
    cbn [w q_35_45]; lra.
Qed.

Lemma DoSlerp_unit_witness :
  magnitude (DoSlerp q_35_45 (mk 0 (3/5) 0 (4/5)) (1/2)) = 1.
Proof.
  apply (DoSlerp_unit q_35_45 (mk 0 (3/5) 0 (4/5)) (1/2)).
  - exact magnitude_q_35_45.
  - apply magnitude_mk_unit. field.
  - lra.
  - intros _. rewrite Dot_q_35_45_other. cbn [w q_35_45].
    split; [lra | split; [lra | apply DoSlerp_spec_q_35_45_w; lra]].
Defined.

(** When no constructor call of [DoSlerp] receives [w = 0], the public
    [SlerpUnclamped] returns what the algorithm of the specification
    returns, and so does [Slerp] for [t] between [0] and [1]. *)
Theorem Slerp_follows_spec (from to : t) (t_ : R) :
  (Dot from to < 0 -> w to <> 0) ->
  (Rabs (Dot from to) > DOT_THRESHOLD ->
   w from + t_ * ((if Rlt_dec (Dot from to) 0 then - w to else w to) - w from) <> 0) ->
  (~ Rabs (Dot from to) > DOT_THRESHOLD ->
   w to <> w from * Dot from to /\ w (DoSlerp_spec from to t_) <> 0) ->
  SlerpUnclamped from to t_ = DoSlerp_spec from to t_
  /\ (0 <= t_ <= 1 -> Slerp from to t_ = DoSlerp_spec from to t_).
Proof.
  intros Hneg Hlerp Hslerp.
  assert (Heq : DoSlerp from to t_ = DoSlerp_spec from to t_).
  { apply DoSlerp_refines_spec; try assumption; intros Hle;
      destruct (Hslerp Hle); assumption. }
  split.
  - unfold SlerpUnclamped. exact Heq.
  - intros Ht. rewrite (Slerp_inside from to t_ Ht). exact Heq.
Qed.

Lemma Slerp_follows_spec_witness :
  SlerpUnclamped q_35_45 (mk 0 (3/5) 0 (4/5)) (1/2)
  = DoSlerp_spec q_35_45 (mk 0 (3/5) 0 (4/5)) (1/2)
  /\ (0 <= 1/2 <= 1 ->
      Slerp q_35_45 (mk 0 (3/5) 0 (4/5)) (1/2)
      = DoSlerp_spec q_35_45 (mk 0 (3/5) 0 (4/5)) (1/2)).
Proof.
  apply (Slerp_follows_spec q_35_45 (mk 0 (3/5) 0 (4/5)) (1/2));
    rewrite Dot_q_35_45_other.
  - intros H. exfalso. lra.
  - rewrite Rabs_right by lra. unfold DOT_THRESHOLD. intros H. exfalso. lra.
  - intros _. cbn [w q_35_45].
    split; [lra | apply DoSlerp_spec_q_35_45_w; lra].
Defined.

(** In the near-parallel branch the interpolation returns a unit
    quaternion, whatever the magnitudes of [from] and [to]: for every [t]
    through [SlerpUnclamped], and for [t] between [0] and [1] through
    [Slerp]. *)
Theorem Slerp_near_parallel_unit (from to : t) (t_ : R) :
  Rabs (Dot from to) > DOT_THRESHOLD ->
  magnitude (SlerpUnclamped from to t_) = 1
  /\ (0 <= t_ <= 1 -> magnitude (Slerp from to t_) = 1).
Proof.
  intros Hgt. split.
  - unfold SlerpUnclamped. apply magnitude_DoSlerp_near_parallel, Hgt.
  - intros Ht. rewrite (Slerp_inside from to t_ Ht).
    apply magnitude_DoSlerp_near_parallel, Hgt.
Qed.

Lemma Slerp_near_parallel_unit_witness :
  magnitude (SlerpUnclamped (mk 0 0 0 2) (mk 0 0 0 (-3)) 7) = 1
  /\ (0 <= 7 <= 1 -> magnitude (Slerp (mk 0 0 0 2) (mk 0 0 0 (-3)) 7) = 1).
Proof.
  apply (Slerp_near_parallel_unit (mk 0 0 0 2) (mk 0 0 0 (-3)) 7).
  unfold Dot, DOT_THRESHOLD; cbn [x y z w].
  rewrite Rabs_left by lra. lra.
Defined.

(** ** Round trips away from [w = 0] *)

Lemma w_normalized_nonzero (q : t) : w (normalized q) <> 0.
Proof.
  unfold normalized. destruct (Rgt_dec (magnitude q) 0).
  - apply w_new_nonzero.
  - rewrite identity_eq. simpl. lra.
Qed.

(** Normalizing twice is normalizing once, for a quaternion whose [w] is
    not zero. *)
Theorem normalized_idempotent (q : t) :
  w q <> 0 -> normalized (normalized q) = normalized q.
Proof.
  intros Hw. apply normalized_of_unit.
  - apply magnitude_normalized; [apply magnitude_pos_of_w |]; exact Hw.
  - apply w_normalized_nonzero.
Qed.

Lemma normalized_idempotent_witness :
  normalized (normalized (mk 3 0 0 4)) = normalized (mk 3 0 0 4).
Proof.
  apply (normalized_idempotent (mk 3 0 0 4)). simpl. lra.
Defined.

(** A quaternion whose [w] is not zero times its [inverse] is the
    identity, on both sides. *)
Theorem Multiply_inverse (q : t) :
  w q <> 0 ->
  Multiply q (inverse q) = identity /\ Multiply (inverse q) q = identity.
Proof.
  intros Hw.
  pose proof (magnitude_pos_of_w q Hw) as Hm.
  assert (Hm0 : magnitude q <> 0) by lra.
  rewrite (inverse_nonzero_w q Hm0 Hw), identity_eq.
  pose proof (magnitude_pow2 q) as Hq. unfold Dot in Hq.
  assert (Hq0 : magnitude q ^ 2 <> 0) by (apply pow_nonzero, Hm0).
  revert Hq Hq0. generalize (magnitude q ^ 2). intros m2 Hq Hq0.
  destruct q as [qx qy qz qw]. cbn [x y z w] in *.
  unfold Multiply; cbn [x y z w].
  assert (Hone : (qx * qx + qy * qy + qz * qz + qw * qw) / m2 = 1).
  { rewrite <- Hq. field. exact Hq0. }
  split.
  - replace (qw * (qw / m2) - qx * (- qx / m2) - qy * (- qy / m2) - qz * (- qz / m2))
      with ((qx * qx + qy * qy + qz * qz + qw * qw) / m2) by (field; exact Hq0).
    rewrite Hone, new_nonzero by lra. f_equal; field; exact Hq0.
  - replace (qw / m2 * qw - - qx / m2 * qx - - qy / m2 * qy - - qz / m2 * qz)
      with ((qx * qx + qy * qy + qz * qz + qw * qw) / m2) by (field; exact Hq0).
    rewrite Hone, new_nonzero by lra. f_equal; field; exact Hq0.
Qed.

Lemma Multiply_inverse_witness :
  Multiply (mk 3 0 0 4) (inverse (mk 3 0 0 4)) = identity
  /\ Multiply (inverse (mk 3 0 0 4)) (mk 3 0 0 4) = identity.
Proof.
  apply (Multiply_inverse (mk 3 0 0 4)). simpl. lra.
Defined.

(** ** [ClampMagnitude] *)

Lemma magnitude_scale (q : t) (k : R) :
  magnitude (mk (x q * k) (y q * k) (z q * k) (w q * k)) = Rabs k * magnitude q.
Proof.
  unfold magnitude, Dot; cbn [x y z w].
  replace (x q * k * (x q * k) + y q * k * (y q * k) + z q * k * (z q * k)
           + w q * k * (w q * k))
    with (Rsqr k * (x q * x q + y q * y q + z q * z q + w q * w q))
    by (unfold Rsqr; ring).
  rewrite sqrt_mult_alt by apply Rle_0_sqr.
  now rewrite sqrt_Rsqr_abs.
Qed.

Lemma ClampMagnitude_beyond (q : t) (maxLength : R) :
  magnitude q > maxLength -> w q <> 0 -> maxLength <> 0 ->
  ClampMagnitude q maxLength =
  mk (x q * (maxLength / magnitude q)) (y q * (maxLength / magnitude q))
     (z q * (maxLength / magnitude q)) (w q * (maxLength / magnitude q)).
Proof.
  intros Hgt Hw HL. pose proof (magnitude_pos_of_w q Hw) as Hm.
  unfold ClampMagnitude. cbv zeta.
  destruct (Rgt_dec (magnitude q) maxLength) as [_ | Hn]; [| contradiction].
  apply new_nonzero. apply Rmult_integral_contrapositive_currified; [exact Hw |].
  apply div_nonzero; lra.
Qed.

(** With a positive [maxLength] and a [w] that is not zero,
    [ClampMagnitude] returns the quaternion itself when its magnitude is
    within [maxLength], and in every case a quaternion whose magnitude is
    the smaller of the magnitude and [maxLength]. *)
Theorem ClampMagnitude_positive (q : t) (maxLength : R) :
  w q <> 0 -> 0 < maxLength ->
  (magnitude q <= maxLength -> ClampMagnitude q maxLength = q)
  /\ magnitude (ClampMagnitude q maxLength) = Rmin (magnitude q) maxLength.
Proof.
  intros Hw HL. pose proof (magnitude_pos_of_w q Hw) as Hm.
  assert (Hwithin : magnitude q <= maxLength -> ClampMagnitude q maxLength = q).
  { intros Hle. unfold ClampMagnitude. cbv zeta.
    destruct (Rgt_dec (magnitude q) maxLength) as [Hgt | _]; [exfalso; lra |].
    rewrite !Rmult_1_r. apply new_fields_nonzero_w, Hw. }
  split; [exact Hwithin |].
  destruct (Rle_lt_dec (magnitude q) maxLength) as [Hle | Hgt].
  - rewrite (Hwithin Hle). now rewrite Rmin_left.
  - rewrite ClampMagnitude_beyond by lra.
    rewrite magnitude_scale, Rmin_right by lra.
    rewrite Rabs_pos_eq by (apply Rlt_le, Rdiv_lt_0_compat; lra).
    field. lra.
Qed.

Lemma ClampMagnitude_positive_witness :
  ClampMagnitude (mk 3 0 0 4) 7 = mk 3 0 0 4
  /\ magnitude (ClampMagnitude (mk 3 0 0 4) 1) = 1.
Proof.
  assert (Hw : w (mk 3 0 0 4) <> 0) by (simpl; lra).
  split.
  - apply (proj1 (ClampMagnitude_positive (mk 3 0 0 4) 7 Hw ltac:(lra))).
    rewrite magnitude_3004. lra.
  - rewrite (proj2 (ClampMagnitude_positive (mk 3 0 0 4) 1 Hw ltac:(lra))).
    rewrite magnitude_3004. apply Rmin_right. lra.
Defined.

(** [ClampMagnitude] outside the positive lengths, for a quaternion whose
    [w] is not zero: a [maxLength] of zero gives [(0, 0, 0, 1)], of
    magnitude [1] (the constructor receives four zeros), and a negative
    [maxLength] gives the quaternion turned to the opposite sign with
    magnitude [- maxLength]. *)
Theorem ClampMagnitude_nonpositive (q : t) (maxLength : R) :
  w q <> 0 ->
  (maxLength = 0 -> ClampMagnitude q maxLength = mk 0 0 0 1)
  /\ (maxLength < 0 ->
      ClampMagnitude q maxLength =
      mk (x q * (maxLength / magnitude q)) (y q * (maxLength / magnitude q))
         (z q * (maxLength / magnitude q)) (w q * (maxLength / magnitude q))
      /\ magnitude (ClampMagnitude q maxLength) = - maxLength).
Proof.
  intros Hw. pose proof (magnitude_pos_of_w q Hw) as Hm. split.
  - intros ->. unfold ClampMagnitude. cbv zeta.
    destruct (Rgt_dec (magnitude q) 0) as [_ | Hn]; [| exfalso; lra].
    replace (0 / magnitude q) with 0 by (field; lra).
    rewrite !Rmult_0_r. apply new_zero.
  - intros HL. rewrite ClampMagnitude_beyond by lra. split; [reflexivity |].
    rewrite magnitude_scale.
    assert (Hneg : maxLength / magnitude q < 0).
    { unfold Rdiv. apply Rmult_neg_pos; [exact HL |].
      apply Rinv_0_lt_compat, Hm. }
    rewrite Rabs_left by exact Hneg. field. lra.
Qed.

Lemma ClampMagnitude_nonpositive_witness :
  ClampMagnitude (mk 3 0 0 4) 0 = mk 0 0 0 1
  /\ magnitude (ClampMagnitude (mk 3 0 0 4) (-10)) = 10.
Proof.
  assert (Hw : w (mk 3 0 0 4) <> 0) by (simpl; lra).
  split.
  - exact (proj1 (ClampMagnitude_nonpositive (mk 3 0 0 4) 0 Hw) eq_refl).
  - destruct (proj2 (ClampMagnitude_nonpositive (mk 3 0 0 4) (-10) Hw)) as [_ Hm];
      [lra |].
    rewrite Hm. ring.
Defined.

(** ** More on the interpolation *)



(** ** The end points of [Slerp] *)

(** The first component of the trigonometric branch. *)
Lemma x_interpolate_trigonometric (from to : t) (dot t_ : R) :
  ~ dot > DOT_THRESHOLD -> w to <> w from * dot ->
  x (interpolate from to dot t_)
  = x from * cos (acos dot * t_)
    + x (to_orthogonal_part from to dot)
      / magnitude (to_orthogonal_part from to dot)
      * sin (acos dot * t_).
Proof.
  intros Hle Hv. unfold interpolate.
  destruct (Rgt_dec dot DOT_THRESHOLD) as [Hgt | _]; [contradiction |].
  cbv zeta. rewrite (new_nonzero _ _ _ (w to - w from * dot)) by lra.
  fold (to_orthogonal_part from to dot).
  assert (Hwv : w (to_orthogonal_part from to dot) <> 0)
    by (unfold to_orthogonal_part; cbn [w]; lra).
  rewrite (normalized_nonzero_w _ (magnitude_pos_of_w _ Hwv) Hwv).
  rewrite new_eq. reflexivity.
Qed.

Lemma sin_acos_35 : sin (acos (3/5)) = 4/5.
Proof.
  rewrite sin_acos by lra.
  replace (1 - (3/5)²) with ((4/5) * (4/5)) by (unfold Rsqr; field).
  apply sqrt_square. lra.
Qed.

(** In the trigonometric branch at cosine [3/5] and [t = 1], the first
    component of the result is the first component of [to] only if the
    part of [to] orthogonal to [from] has magnitude [4/5]. *)
Lemma x_interpolate_35_1 (from to : t) :
  Dot from to = 3/5 -> w to <> w from * (3/5) ->
  x to <> x from * (3/5) ->
  x (interpolate from to (Dot from to) 1) = x to ->
  magnitude (to_orthogonal_part from to (3/5)) ^ 2 = 16/25.
Proof.
  intros Hd Hv Hx Heq. rewrite Hd in Heq.
  rewrite x_interpolate_trigonometric in Heq
    by (unfold DOT_THRESHOLD; lra || exact Hv).
  rewrite Rmult_1_r, cos_acos, sin_acos_35 in Heq by lra.
  assert (Hwv : w (to_orthogonal_part from to (3/5)) <> 0)
    by (unfold to_orthogonal_part; cbn [w]; lra).
  pose proof (magnitude_pos_of_w _ Hwv) as Hpos.
  unfold to_orthogonal_part at 1 in Heq. cbn [x] in Heq.
  generalize dependent (magnitude (to_orthogonal_part from to (3/5))).
  intros m Heq Hpos.
  assert (Hm : (x to - x from * (3/5)) * (4/5) = (x to - x from * (3/5)) * m).
  { apply Rmult_eq_reg_r with (r := / m);
      [| apply Rinv_neq_0_compat; lra].
    rewrite (Rmult_assoc _ m), Rinv_r by lra. unfold Rdiv in Heq. lra. }
  apply Rmult_eq_reg_l in Hm; [| lra]. rewrite <- Hm. field.
Qed.

(** C2 as stated fails, by design, in three ways.  The dot product is
    negative: [Slerp] from [(0, 0, 0, 1)] to [(0, 0, 0, -1)] at [t = 1] is
    [(0, 0, 0, 1)], since [to] is negated before interpolating.  The
    near-parallel branch normalizes its result: [Slerp] from
    [(0, 0, 0, 2)] to itself is [(0, 0, 0, 1)] at [t = 0] and at [t = 1].
    The trigonometric branch is written for unit quaternions: at [t = 1]
    it misses [to] from the non-unit [(0, 0, 0, 2)] to the unit
    [(9/10, 3/10, 1/10, 3/10)], and from the unit [(3/5, 0, 0, 4/5)] to
    the non-unit [(1/3, 0, 0, 1/2)]. *)
Lemma Slerp_endpoints_counterexample :
  Slerp (mk 0 0 0 1) (mk 0 0 0 (-1)) 1 = mk 0 0 0 1
  /\ Slerp (mk 0 0 0 1) (mk 0 0 0 (-1)) 1 <> mk 0 0 0 (-1)
  /\ Slerp (mk 0 0 0 2) (mk 0 0 0 2) 0 = mk 0 0 0 1
  /\ Slerp (mk 0 0 0 2) (mk 0 0 0 2) 0 <> mk 0 0 0 2
  /\ Slerp (mk 0 0 0 2) (mk 0 0 0 2) 1 = mk 0 0 0 1
  /\ Slerp (mk 0 0 0 2) (mk 0 0 0 2) 1 <> mk 0 0 0 2
  /\ Slerp (mk 0 0 0 2) (mk (9/10) (3/10) (1/10) (3/10)) 1
     <> mk (9/10) (3/10) (1/10) (3/10)
  /\ Slerp q_35_45 (mk (1/3) 0 0 (1/2)) 1 <> mk (1/3) 0 0 (1/2).
Proof.
  assert (H1 : Slerp (mk 0 0 0 1) (mk 0 0 0 (-1)) 1 = mk 0 0 0 1).
  { rewrite Slerp_inside by lra. rewrite DoSlerp_eq.
    unfold Dot; cbn [x y z w].
    destruct (Rlt_dec _ 0) as [_ | Hn]; [| exfalso; lra].
    rewrite new_nonzero by lra. unfold interpolate, DOT_THRESHOLD; cbn [x y z w].
    destruct (Rgt_dec _ _) as [_ | Hn]; [| exfalso; lra].
    rewrite new_nonzero by lra.
    rewrite normalized_of_unit.
    - f_equal; ring.
    - apply magnitude_mk_unit. ring.
    - simpl. lra. }
  assert (H2 : forall t_ : R, 0 <= t_ <= 1 ->
               Slerp (mk 0 0 0 2) (mk 0 0 0 2) t_ = mk 0 0 0 1).
  { intros t_ Ht. rewrite Slerp_inside by exact Ht. rewrite DoSlerp_eq.
    unfold Dot; cbn [x y z w].
    destruct (Rlt_dec _ 0) as [Hn | _]; [exfalso; lra |].
    unfold interpolate, DOT_THRESHOLD; cbn [x y z w].
    destruct (Rgt_dec _ _) as [_ | Hn]; [| exfalso; lra].
    rewrite new_nonzero by lra.
    assert (Hm : magnitude (mk (0 + t_ * (0 - 0)) (0 + t_ * (0 - 0))
                               (0 + t_ * (0 - 0)) (2 + t_ * (2 - 2))) = 2).
    { unfold magnitude, Dot; cbn [x y z w].
      replace (_ + _ + _ + _) with (2 * 2) by ring. apply sqrt_square. lra. }
    rewrite normalized_nonzero_w; rewrite ?Hm; cbn [x y z w]; try lra.
    f_equal; field. }
  assert (H3 : Slerp (mk 0 0 0 2) (mk (9/10) (3/10) (1/10) (3/10)) 1
               <> mk (9/10) (3/10) (1/10) (3/10)).
  { assert (Hd : Dot (mk 0 0 0 2) (mk (9/10) (3/10) (1/10) (3/10)) = 3/5)
      by (unfold Dot; cbn [x y z w]; field).
    rewrite Slerp_inside by lra. rewrite DoSlerp_eq.
    destruct (Rlt_dec _ 0) as [Hn | _]; [exfalso; rewrite Hd in Hn; lra |].
    intros Heq. apply (f_equal x) in Heq.
    apply x_interpolate_35_1 in Heq;
      [| exact Hd | cbn [x y z w]; lra | cbn [x y z w]; lra].
    rewrite magnitude_pow2 in Heq.
    unfold Dot, to_orthogonal_part in Heq. cbn [x y z w] in Heq. lra. }
  assert (H4 : Slerp q_35_45 (mk (1/3) 0 0 (1/2)) 1 <> mk (1/3) 0 0 (1/2)).
  { assert (Hd : Dot q_35_45 (mk (1/3) 0 0 (1/2)) = 3/5)
      by (unfold Dot, q_35_45; cbn [x y z w]; field).
    rewrite Slerp_inside by lra. rewrite DoSlerp_eq.
    destruct (Rlt_dec _ 0) as [Hn | _]; [exfalso; rewrite Hd in Hn; lra |].
    intros Heq. apply (f_equal x) in Heq.
    apply x_interpolate_35_1 in Heq;
      [| exact Hd | unfold q_35_45; cbn [x y z w]; lra
       | unfold q_35_45; cbn [x y z w]; lra].
    rewrite magnitude_pow2 in Heq.
    unfold Dot, to_orthogonal_part, q_35_45 in Heq. cbn [x y z w] in Heq. lra. }
  rewrite H1, !H2 by lra.
  split; [reflexivity |].
  split; [intros Heq; apply (f_equal w) in Heq; simpl in Heq; lra |].
  split; [reflexivity |].
  split; [intros Heq; apply (f_equal w) in Heq; simpl in Heq; lra |].
  split; [reflexivity |].
  split; [intros Heq; apply (f_equal w) in Heq; simpl in Heq; lra |].
  split; [exact H3 | exact H4].
Qed.

(** Where the constructor meets a zero [w] (the defect of C1) the end
    points are missed as well: at [t = 0] from [(1, 0, 0, 0)], whose [w]
    is zero; at [t = 1] to [(1, 0, 0, 0)]; and at [t = 1] from the
    identity to [(3/5, 0, 0, 4/5)], where the [w] of the part of [to]
    orthogonal to [from], [w to - w from * Dot from to], is zero. *)
Lemma Slerp_endpoints_zero_w :
  Slerp half_turn_x (mk 0 1 0 0) 0 <> half_turn_x
  /\ Slerp half_turn_x half_turn_x 1 <> half_turn_x
  /\ Slerp identity q_35_45 1 <> q_35_45.
Proof.
  split; [| split].
  - rewrite Slerp_inside by lra. rewrite DoSlerp_half_turns.
    intros Heq. apply (f_equal w) in Heq. simpl in Heq. lra.
  - rewrite Slerp_inside by lra. rewrite DoSlerp_eq.
    assert (Hd : Dot half_turn_x half_turn_x = 1)
      by (unfold Dot, half_turn_x; cbn [x y z w]; ring).
    rewrite Hd. destruct (Rlt_dec 1 0) as [Hn | _]; [exfalso; lra |].
    unfold interpolate, DOT_THRESHOLD.
    destruct (Rgt_dec 1 (9995 / 10000)) as [_ | Hn]; [| exfalso; lra].
    intros Heq. apply (f_equal w) in Heq.
    exact (w_normalized_nonzero _ Heq).
  - rewrite Slerp_inside by lra. rewrite DoSlerp_identity_q_35_45.
    intros Heq. apply (f_equal w) in Heq. unfold q_35_45 in Heq.
    cbn [w] in Heq. pose proof sqrt_34_pos as Hs.
    assert (0 < 3 / sqrt 34) by (apply Rdiv_lt_0_compat; lra). lra.
Qed.

(** C2, amended.  [Slerp a b 0] is [a] whenever [w a] is not zero and,
    if the absolute value of [Dot a b] exceeds [DOT_THRESHOLD] (the
    near-parallel branch, which normalizes), [a] is of magnitude [1];
    nothing is asked of [b].  [Slerp a b 1] is [b] when [Dot a b] is not
    negative, and [b] with its four components negated when it is,
    whenever [b] is of magnitude [1] with [w b] not zero and, if the
    absolute value of [Dot a b] is at most [DOT_THRESHOLD] (the
    trigonometric branch), [a] is of magnitude [1] and [w b] is not
    [w a * Dot a b], the [w] handed to the constructor for the part of
    [b] orthogonal to [a]. *)
Theorem Slerp_endpoints (a b : t) :
  (w a <> 0 ->
   (Rabs (Dot a b) > DOT_THRESHOLD -> magnitude a = 1) ->
   Slerp a b 0 = a)
  /\ (magnitude b = 1 -> w b <> 0 ->
      (Rabs (Dot a b) <= DOT_THRESHOLD ->
       magnitude a = 1 /\ w b <> w a * Dot a b) ->
      Slerp a b 1 = if Rlt_dec (Dot a b) 0 then negated b else b).
Proof.
  split.
  - intros Hw Hm. rewrite Slerp_inside by lra. rewrite DoSlerp_eq.
    destruct (Rlt_dec (Dot a b) 0) as [Hneg | Hpos];
      apply interpolate_0_branches; try exact Hw; intros Hgt; apply Hm.
    + rewrite Rabs_left by exact Hneg. exact Hgt.
    + rewrite Rabs_right by lra. exact Hgt.
  - intros Hb Hwb Hv. rewrite Slerp_inside by lra. rewrite DoSlerp_eq.
    destruct (Rlt_dec (Dot a b) 0) as [Hneg | Hpos].
    + rewrite (new_negated b Hwb), <- Dot_negated_r.
      apply interpolate_1_branches.
      * now rewrite magnitude_negated.
      * rewrite Dot_negated_r. lra.
      * simpl. lra.
      * rewrite Dot_negated_r. intros Hle.
        destruct Hv as [Ha Hne]; [rewrite Rabs_left by exact Hneg; exact Hle |].
        split; [exact Ha |]. cbn [w negated]. lra.
    + apply interpolate_1_branches; try assumption; try lra.
      intros Hle. apply Hv. rewrite Rabs_right by lra. exact Hle.
Qed.

Lemma Slerp_endpoints_witness :
  Slerp identity q_35_45 0 = identity
  /\ Slerp (mk 0 0 0 (1/2)) q_35_45 0 = mk 0 0 0 (1/2)
  /\ Slerp q_35_45 (mk 0 (3/5) 0 (4/5)) 1 = mk 0 (3/5) 0 (4/5)
  /\ Slerp q_35_45 (negated (mk 0 (3/5) 0 (4/5))) 1
     = negated (negated (mk 0 (3/5) 0 (4/5)))
  /\ Slerp (mk 0 0 0 2) (mk 0 0 0 1) 1 = mk 0 0 0 1.
Proof.
  split; [| split; [| split; [| split]]].
  - apply (proj1 (Slerp_endpoints identity q_35_45)).
    + rewrite identity_eq. simpl. lra.
    + intros _. rewrite identity_eq. apply magnitude_mk_unit. ring.
  - apply (proj1 (Slerp_endpoints (mk 0 0 0 (1/2)) q_35_45)).
    + simpl. lra.
    + unfold Dot, q_35_45, DOT_THRESHOLD; cbn [x y z w].
      rewrite Rabs_right by lra. intros H. exfalso. lra.
  - rewrite (proj2 (Slerp_endpoints q_35_45 (mk 0 (3/5) 0 (4/5)))).
    + rewrite Dot_q_35_45_other.
      destruct (Rlt_dec (16/25) 0) as [Hn | _]; [exfalso; lra | reflexivity].
    + apply magnitude_mk_unit. field.
    + simpl. lra.
    + intros _. split; [exact magnitude_q_35_45 |].
      rewrite Dot_q_35_45_other. cbn [w q_35_45]. lra.
  - rewrite (proj2 (Slerp_endpoints q_35_45 (negated (mk 0 (3/5) 0 (4/5))))).
    + rewrite Dot_negated_r, Dot_q_35_45_other.
      destruct (Rlt_dec (- (16/25)) 0) as [_ | Hn]; [reflexivity | exfalso; lra].
    + rewrite magnitude_negated. apply magnitude_mk_unit. field.
    + simpl. lra.
    + intros _. split; [exact magnitude_q_35_45 |].
      rewrite Dot_negated_r, Dot_q_35_45_other. cbn [w q_35_45 negated]. lra.
  - rewrite (proj2 (Slerp_endpoints (mk 0 0 0 2) (mk 0 0 0 1))).
    + unfold Dot; cbn [x y z w].
      destruct (Rlt_dec _ 0) as [Hn | _]; [exfalso; lra | reflexivity].
    + apply magnitude_mk_unit. ring.
    + simpl. lra.
    + unfold Dot, DOT_THRESHOLD; cbn [x y z w].
      rewrite Rabs_right by lra. intros H. exfalso. lra.
Defined.

Lemma negated_negated (q : t) : negated (negated q) = q.
Proof. destruct q. unfold negated; simpl. f_equal; ring. Qed.

(** A target and its negation are interpolated to alike: when the dot
    product is not zero and the target's [w] is not zero, [DoSlerp]
    towards [- to] is [DoSlerp] towards [to], for every [t]. *)
Theorem DoSlerp_negated_target (from to : t) (t_ : R) :
  Dot from to <> 0 -> w to <> 0 ->
  DoSlerp from (negated to) t_ = DoSlerp from to t_
  /\ SlerpUnclamped from (negated to) t_ = SlerpUnclamped from to t_.
Proof.
  intros Hd Hw.
  assert (Heq : DoSlerp from (negated to) t_ = DoSlerp from to t_).
  { rewrite !DoSlerp_eq, Dot_negated_r.
    assert (Hwn : w (negated to) <> 0) by (simpl; lra).
    rewrite (new_negated to Hw), (new_negated (negated to) Hwn), negated_negated.
    destruct (Rlt_dec (Dot from to) 0) as [Hneg | Hpos];
      destruct (Rlt_dec (- Dot from to) 0) as [Hneg' | Hpos']; try (exfalso; lra).
    - reflexivity.
    - now rewrite Ropp_involutive. }
  split; [exact Heq | unfold SlerpUnclamped; exact Heq].
Qed.

Lemma DoSlerp_negated_target_witness :
  DoSlerp q_35_45 (negated (mk 0 (3/5) 0 (4/5))) (1/2)
  = DoSlerp q_35_45 (mk 0 (3/5) 0 (4/5)) (1/2)
  /\ SlerpUnclamped q_35_45 (negated (mk 0 (3/5) 0 (4/5))) (1/2)
     = SlerpUnclamped q_35_45 (mk 0 (3/5) 0 (4/5)) (1/2).
Proof.
  apply (DoSlerp_negated_target q_35_45 (mk 0 (3/5) 0 (4/5)) (1/2)).
  - rewrite Dot_q_35_45_other. lra.
  - simpl. lra.
Defined.

Lemma Dot_rotation_l (from o : t) (c s : R) :
  Dot from (mk (x from * c + x o * s) (y from * c + y o * s)
               (z from * c + z o * s) (w from * c + w o * s))
  = c * Dot from from + s * Dot from o.
Proof. unfold Dot; cbn [x y z w]. ring. Qed.

Lemma interpolate_spec_angle (from to : t) (t_ : R) :
  Dot from from = 1 -> Dot to to = 1 ->
  0 <= Dot from to -> ~ Dot from to > DOT_THRESHOLD ->
  Dot from (interpolate_spec from to (Dot from to) t_)
  = cos (acos (Dot from to) * t_).
Proof.
  intros Hf Ht Hd Hle. unfold interpolate_spec.
  destruct (Rgt_dec (Dot from to) DOT_THRESHOLD) as [Hgt | _]; [contradiction |].
  assert (Hlt : Dot from to * Dot from to < 1)
    by (unfold DOT_THRESHOLD in Hle; nra).
  destruct (orthogonal_direction from to Hf Ht Hlt) as (Hm & _ & Hfo).
  cbv zeta in *. unfold normalize_spec.
  destruct (Rgt_dec _ 0) as [_ | Hn]; [| exfalso; lra].
  rewrite Dot_rotation_l, Hf, Hfo. ring.
Qed.

Lemma Dot_DoSlerp (from to : t) (t_ : R) :
  magnitude from = 1 -> magnitude to = 1 ->
  ~ Rabs (Dot from to) > DOT_THRESHOLD ->
  (Dot from to < 0 -> w to <> 0) ->
  w to <> w from * Dot from to ->
  w (DoSlerp_spec from to t_) <> 0 ->
  Dot from (DoSlerp from to t_) = cos (acos (Rabs (Dot from to)) * t_).
Proof.
  intros Hf Ht Hle Hneg Hv Hr.
  rewrite DoSlerp_refines_spec; try assumption;
    [| intros Hgt; contradiction | intros _; exact Hv | intros _; exact Hr].
  apply magnitude_unit in Hf. apply magnitude_unit in Ht.
  unfold DoSlerp_spec. cbv zeta.
  destruct (Rlt_dec (Dot from to) 0) as [Hlt | Hge].
  - rewrite (Rabs_left _ Hlt) in *. rewrite <- Dot_negated_r.
    apply interpolate_spec_angle.
    + exact Hf.
    + apply magnitude_unit. rewrite magnitude_negated. now apply magnitude_unit.
    + rewrite Dot_negated_r. lra.
    + now rewrite Dot_negated_r.
  - rewrite (Rabs_right (Dot from to)) in * by lra.
    apply interpolate_spec_angle; try assumption. lra.
Qed.

(** Constant angular speed: away from the near-parallel branch, and when
    no constructor call receives [w = 0], the cosine of the angle between
    a unit [from] and the interpolated quaternion is the cosine of [t]
    times the angle between [from] and [to] (or [- to], if the dot product
    is negative): for every real [t] through [SlerpUnclamped], and for [t]
    between [0] and [1] through [Slerp]. *)
Theorem Slerp_angle (from to : t) (t_ : R) :
  magnitude from = 1 -> magnitude to = 1 ->
  ~ Rabs (Dot from to) > DOT_THRESHOLD ->
  (Dot from to < 0 -> w to <> 0) ->
  w to <> w from * Dot from to ->
  w (DoSlerp_spec from to t_) <> 0 ->
  Dot from (SlerpUnclamped from to t_) = cos (acos (Rabs (Dot from to)) * t_)
  /\ (0 <= t_ <= 1 ->
      Dot from (Slerp from to t_) = cos (acos (Rabs (Dot from to)) * t_)).
Proof.
  intros Hf Ht Hle Hneg Hv Hr.
  pose proof (Dot_DoSlerp from to t_ Hf Ht Hle Hneg Hv Hr) as Heq.
  split.
  - unfold SlerpUnclamped. exact Heq.
  - intros H01. rewrite (Slerp_inside from to t_ H01). exact Heq.
Qed.

Lemma Slerp_angle_witness :
  Dot q_35_45 (SlerpUnclamped q_35_45 (mk 0 (3/5) 0 (4/5)) (1/2))
  = cos (acos (Rabs (Dot q_35_45 (mk 0 (3/5) 0 (4/5)))) * (1/2))
  /\ (0 <= 1/2 <= 1 ->
      Dot q_35_45 (Slerp q_35_45 (mk 0 (3/5) 0 (4/5)) (1/2))
      = cos (acos (Rabs (Dot q_35_45 (mk 0 (3/5) 0 (4/5)))) * (1/2))).
Proof.
  apply (Slerp_angle q_35_45 (mk 0 (3/5) 0 (4/5)) (1/2)).
  - exact magnitude_q_35_45.
  - apply magnitude_mk_unit. field.
  - rewrite Dot_q_35_45_other, Rabs_right by lra. unfold DOT_THRESHOLD. lra.
  - rewrite Dot_q_35_45_other. intros H. exfalso. lra.
  - rewrite Dot_q_35_45_other. cbn [w q_35_45]. lra.
  - apply DoSlerp_spec_q_35_45_w. lra.
Defined.

(** ** [Angle] and [RotateTowards] *)

Lemma RAD_pos : 0 < 180 / PI.
Proof. apply Rdiv_lt_0_compat; [lra | exact PI_RGT_0]. Qed.


Lemma Angle_nonneg (a b : t) : 0 <= Angle a b.
Proof.
  unfold Angle. cbv zeta. pose proof RAD_pos.
  pose proof (acos_bound (Dot a b / (magnitude a * magnitude b))) as [H0 _].
  apply Rmult_le_pos; lra.
Qed.


Lemma Angle_q_35_45_other_neq_0 : Angle q_35_45 (mk 0 (3/5) 0 (4/5)) <> 0.
Proof.
  unfold Angle. cbv zeta. rewrite Dot_q_35_45_other, magnitude_q_35_45.
  rewrite (magnitude_mk_unit 0 (3/5) 0 (4/5)) by field.
  pose proof RAD_pos. pose proof (acos_bound_lt (16 / 25 / (1 * 1))) as [H0 _];
    [lra |].
  apply Rgt_not_eq. apply Rmult_lt_0_compat; lra.
Qed.


(** A step of [maxDegreesDelta] degrees is a step of that many degrees:
    for unit quaternions with a dot product between [0] and
    [DOT_THRESHOLD], a [maxDegreesDelta] of at most the angle, and no
    constructor call receiving [w = 0], the cosine of the angle between
    [from] and the result is the cosine of [maxDegreesDelta] degrees. *)
Theorem RotateTowards_step (a b : t) (maxDegreesDelta : R) :
  magnitude a = 1 -> magnitude b = 1 ->
  0 <= Dot a b <= DOT_THRESHOLD ->
  maxDegreesDelta <= Angle a b ->
  w b <> w a * Dot a b ->
  w (DoSlerp_spec a b (maxDegreesDelta / Angle a b)) <> 0 ->
  Dot a (RotateTowards a b maxDegreesDelta) = cos (maxDegreesDelta * (PI / 180)).
Proof.
  intros Ha Hb [Hd0 Hd1] Hd Hv Hr.
  pose proof PI_RGT_0 as Hpi. pose proof RAD_pos as Hrad.
  assert (HA : Angle a b = acos (Dot a b) * (180 / PI)).
  { unfold Angle. cbv zeta. rewrite Ha, Hb. do 2 f_equal. field. }
  assert (Hacos : 0 < acos (Dot a b)).
  { apply acos_bound_lt. unfold DOT_THRESHOLD in Hd1. lra. }
  assert (Hpos : 0 < Angle a b) by (rewrite HA; apply Rmult_lt_0_compat; lra).
  unfold RotateTowards. cbv zeta.
  destruct (Req_dec_T (Angle a b) 0) as [H0 | _]; [exfalso; lra |].
  assert (Hle1 : maxDegreesDelta / Angle a b <= 1).
  { apply Rmult_le_reg_r with (r := Angle a b); [exact Hpos |].
    unfold Rdiv. rewrite Rmult_assoc, Rinv_l by lra. lra. }
  rewrite Rmin_right by exact Hle1. unfold SlerpUnclamped.
  rewrite Dot_DoSlerp; try assumption.
  - rewrite Rabs_right by lra. f_equal. rewrite HA. field. lra.
  - rewrite Rabs_right by lra. lra.
  - intros Hneg. exfalso. lra.
Qed.

Lemma RotateTowards_step_witness :
  Dot q_35_45
      (RotateTowards q_35_45 (mk 0 (3/5) 0 (4/5))
                     (Angle q_35_45 (mk 0 (3/5) 0 (4/5)) / 2))
  = cos (Angle q_35_45 (mk 0 (3/5) 0 (4/5)) / 2 * (PI / 180)).
Proof.
  apply (RotateTowards_step q_35_45 (mk 0 (3/5) 0 (4/5))
                            (Angle q_35_45 (mk 0 (3/5) 0 (4/5)) / 2)).
  - exact magnitude_q_35_45.
  - apply magnitude_mk_unit. field.
  - rewrite Dot_q_35_45_other. unfold DOT_THRESHOLD. lra.
  - pose proof (Angle_nonneg q_35_45 (mk 0 (3/5) 0 (4/5))). lra.
  - rewrite Dot_q_35_45_other. cbn [w q_35_45]. lra.
  - replace (Angle q_35_45 (mk 0 (3/5) 0 (4/5)) / 2
             / Angle q_35_45 (mk 0 (3/5) 0 (4/5))) with (1/2)
      by (field; exact Angle_q_35_45_other_neq_0).
    apply DoSlerp_spec_q_35_45_w. lra.
Defined.

(** ** [RotatePoint] *)

Lemma RotatePoint_unit (q : t) (p : Vector3.t) :
  Dot q q = 1 -> RotatePoint q p = rotate_homogeneous q p.
Proof.
  intros Hq. unfold RotatePoint, rotate_homogeneous, Vector3.new. cbv zeta.
  unfold Dot in Hq. f_equal; rewrite <- Hq; ring.
Qed.

Lemma sqr_length_rotate_homogeneous (q : t) (p : Vector3.t) :
  sqr_length (rotate_homogeneous q p) = Dot q q * Dot q q * sqr_length p.
Proof. unfold sqr_length, rotate_homogeneous, Dot; simpl. ring. Qed.

Lemma Multiply_hamilton (a b : t) :
  w (hamilton a b) <> 0 -> Multiply a b = hamilton a b.
Proof. intros Hw. unfold Multiply. apply new_nonzero. exact Hw. Qed.

Lemma Dot_hamilton (a b : t) :
  Dot (hamilton a b) (hamilton a b) = Dot a a * Dot b b.
Proof. unfold Dot, hamilton; simpl. ring. Qed.

Lemma rotate_homogeneous_hamilton (a b : t) (p : Vector3.t) :
  rotate_homogeneous (hamilton a b) p
  = rotate_homogeneous a (rotate_homogeneous b p).
Proof.
  unfold rotate_homogeneous, hamilton; simpl. f_equal; ring.
Qed.

(** A unit rotation keeps the length of every point. *)
Theorem RotatePoint_length (rotation : t) (point : Vector3.t) :
  magnitude rotation = 1 ->
  sqr_length (RotatePoint rotation point) = sqr_length point.
Proof.
  intros Hm. apply magnitude_unit in Hm.
  rewrite (RotatePoint_unit rotation point Hm), sqr_length_rotate_homogeneous, Hm.
  ring.
Qed.

Lemma RotatePoint_length_witness :
  sqr_length (RotatePoint q_35_45 (Vector3.mk 1 2 3)) = sqr_length (Vector3.mk 1 2 3).
Proof.
  apply (RotatePoint_length q_35_45 (Vector3.mk 1 2 3)). exact magnitude_q_35_45.
Defined.

(** [Multiply] composes rotations, right to left: for unit quaternions
    whose product has a [w] that is not zero, rotating by
    [Multiply lhs rhs] is rotating by [rhs] and then by [lhs]. *)
Theorem RotatePoint_Multiply (lhs rhs : t) (point : Vector3.t) :
  magnitude lhs = 1 -> magnitude rhs = 1 ->
  w lhs * w rhs - x lhs * x rhs - y lhs * y rhs - z lhs * z rhs <> 0 ->
  RotatePoint (Multiply lhs rhs) point
  = RotatePoint lhs (RotatePoint rhs point).
Proof.
  intros Ha Hb Hw. apply magnitude_unit in Ha. apply magnitude_unit in Hb.
  rewrite (Multiply_hamilton lhs rhs Hw).
  rewrite RotatePoint_unit by (rewrite Dot_hamilton, Ha, Hb; ring).
  rewrite (RotatePoint_unit rhs point Hb), (RotatePoint_unit lhs _ Ha).
  apply rotate_homogeneous_hamilton.
Qed.

Lemma RotatePoint_Multiply_witness :
  RotatePoint (Multiply q_35_45 (mk 0 (3/5) 0 (4/5))) (Vector3.mk 1 2 3)
  = RotatePoint q_35_45 (RotatePoint (mk 0 (3/5) 0 (4/5)) (Vector3.mk 1 2 3)).
Proof.
  apply (RotatePoint_Multiply q_35_45 (mk 0 (3/5) 0 (4/5)) (Vector3.mk 1 2 3)).
  - exact magnitude_q_35_45.
  - apply magnitude_mk_unit. field.
  - unfold q_35_45; simpl. lra.
Defined.

(** The identity rotates nothing, and a quaternion and its negation
    rotate alike. *)
Theorem RotatePoint_identity_negated (q : t) (point : Vector3.t) :
  RotatePoint identity point = point
  /\ RotatePoint (negated q) point = RotatePoint q point.
Proof.
  split.
  - rewrite identity_eq. destruct point as [px py pz].
    unfold RotatePoint, Vector3.new; simpl. f_equal; ring.
  - unfold RotatePoint, Vector3.new, negated; simpl. f_equal; ring.
Qed.

(** The conjugate of a unit quaternion (whose [w] is not zero) undoes
    its rotation. *)
Theorem RotatePoint_conjugate (q : t) (point : Vector3.t) :
  magnitude q = 1 -> w q <> 0 ->
  RotatePoint (conjugate q) (RotatePoint q point) = point
  /\ RotatePoint q (RotatePoint (conjugate q) point) = point.
Proof.
  intros Hm Hw. apply magnitude_unit in Hm.
  rewrite (conjugate_nonzero_w q Hw).
  assert (Hc : Dot (mk (- x q) (- y q) (- z q) (w q))
                   (mk (- x q) (- y q) (- z q) (w q)) = 1).
  { rewrite <- Hm. unfold Dot; simpl. ring. }
  rewrite !(RotatePoint_unit q _ Hm), !(RotatePoint_unit _ _ Hc).
  destruct point as [px py pz]. unfold Dot in Hm.
  split; unfold rotate_homogeneous; cbn [x y z w Vector3.x Vector3.y Vector3.z].
  - f_equal.
    + transitivity ((x q * x q + y q * y q + z q * z q + w q * w q)
                    * (x q * x q + y q * y q + z q * z q + w q * w q) * px);
        [ring | rewrite Hm; ring].
    + transitivity ((x q * x q + y q * y q + z q * z q + w q * w q)
                    * (x q * x q + y q * y q + z q * z q + w q * w q) * py);
        [ring | rewrite Hm; ring].
    + transitivity ((x q * x q + y q * y q + z q * z q + w q * w q)
                    * (x q * x q + y q * y q + z q * z q + w q * w q) * pz);
        [ring | rewrite Hm; ring].
  - f_equal.
    + transitivity ((x q * x q + y q * y q + z q * z q + w q * w q)
                    * (x q * x q + y q * y q + z q * z q + w q * w q) * px);
        [ring | rewrite Hm; ring].
    + transitivity ((x q * x q + y q * y q + z q * z q + w q * w q)
                    * (x q * x q + y q * y q + z q * z q + w q * w q) * py);
        [ring | rewrite Hm; ring].
    + transitivity ((x q * x q + y q * y q + z q * z q + w q * w q)
                    * (x q * x q + y q * y q + z q * z q + w q * w q) * pz);
        [ring | rewrite Hm; ring].
Qed.

Lemma RotatePoint_conjugate_witness :
  RotatePoint (conjugate q_35_45) (RotatePoint q_35_45 (Vector3.mk 1 2 3))
  = Vector3.mk 1 2 3
  /\ RotatePoint q_35_45 (RotatePoint (conjugate q_35_45) (Vector3.mk 1 2 3))
     = Vector3.mk 1 2 3.
Proof.
  apply (RotatePoint_conjugate q_35_45 (Vector3.mk 1 2 3)).
  - exact magnitude_q_35_45.
  - simpl. lra.
Defined.

(** ** The algebra of [Multiply], [Divide], [conjugate] and [inverse] *)

(** The magnitude of a product is the product of the magnitudes, when
    the [w] of the product is not zero; in particular the product of two
    unit quaternions is then a unit quaternion. *)
Theorem magnitude_Multiply (lhs rhs : t) :
  w lhs * w rhs - x lhs * x rhs - y lhs * y rhs - z lhs * z rhs <> 0 ->
  magnitude (Multiply lhs rhs) = magnitude lhs * magnitude rhs.
Proof.
  intros Hw. rewrite (Multiply_hamilton lhs rhs Hw).
  unfold magnitude. rewrite Dot_hamilton.
  apply sqrt_mult; apply Dot_self_nonneg.
Qed.

Lemma magnitude_Multiply_witness :
  magnitude (Multiply (mk 3 0 0 4) (mk 0 (3/5) 0 (4/5)))
  = magnitude (mk 3 0 0 4) * magnitude (mk 0 (3/5) 0 (4/5)).
Proof.
  apply (magnitude_Multiply (mk 3 0 0 4) (mk 0 (3/5) 0 (4/5))). simpl. lra.
Defined.

(** [Multiply] is associative, when the two inner products have a [w]
    that is not zero. *)
Theorem Multiply_assoc (a b c : t) :
  w a * w b - x a * x b - y a * y b - z a * z b <> 0 ->
  w b * w c - x b * x c - y b * y c - z b * z c <> 0 ->
  Multiply (Multiply a b) c = Multiply a (Multiply b c).
Proof.
  intros Hab Hbc.
  rewrite (Multiply_hamilton a b Hab), (Multiply_hamilton b c Hbc).
  unfold Multiply, hamilton; cbn [x y z w]. f_equal; ring.
Qed.

Lemma Multiply_assoc_witness :
  Multiply (Multiply (mk 3 0 0 4) (mk 0 (3/5) 0 (4/5))) (mk 1 0 1 2)
  = Multiply (mk 3 0 0 4) (Multiply (mk 0 (3/5) 0 (4/5)) (mk 1 0 1 2)).
Proof.
  apply (Multiply_assoc (mk 3 0 0 4) (mk 0 (3/5) 0 (4/5)) (mk 1 0 1 2));
    simpl; lra.
Defined.

Lemma inverse_Dot_form (q : t) :
  w q <> 0 ->
  0 < Dot q q
  /\ inverse q = mk (- x q / Dot q q) (- y q / Dot q q)
                    (- z q / Dot q q) (w q / Dot q q).
Proof.
  intros Hw. pose proof (magnitude_pos_of_w q Hw) as Hm.
  assert (Hd : 0 < Dot q q).
  { rewrite <- magnitude_pow2. apply pow_lt, Hm. }
  split; [exact Hd |].
  rewrite inverse_nonzero_w by (lra || exact Hw).
  now rewrite magnitude_pow2.
Qed.

(** [Divide] undoes [Multiply] on the right, and [Multiply] undoes
    [Divide]: for [lhs] and [rhs] whose [w] is not zero, and an
    intermediate product (respectively quotient, whose [w] is the dot
    product over the squared magnitude of [rhs]) whose [w] is not zero. *)
Theorem Divide_Multiply (lhs rhs : t) :
  w lhs <> 0 -> w rhs <> 0 ->
  (w lhs * w rhs - x lhs * x rhs - y lhs * y rhs - z lhs * z rhs <> 0 ->
   Divide (Multiply lhs rhs) rhs = lhs)
  /\ (Dot lhs rhs <> 0 -> Multiply (Divide lhs rhs) rhs = lhs).
Proof.
  intros Hwl Hwr. destruct (inverse_Dot_form rhs Hwr) as [Hd Hinv].
  assert (Hd0 : Dot rhs rhs <> 0) by lra.
  split; intros Hw.
  - unfold Divide. cbv zeta. rewrite Hinv, (Multiply_hamilton lhs rhs Hw).
    transitivity (new (x lhs) (y lhs) (z lhs) (w lhs));
      [| apply new_fields_nonzero_w, Hwl].
    unfold Multiply, hamilton; cbn [x y z w]. unfold Dot in *.
    f_equal; field; exact Hd0.
  - unfold Divide. cbv zeta. rewrite Hinv.
    set (i := mk _ _ _ _).
    assert (Hq : Multiply lhs i = hamilton lhs i).
    { apply Multiply_hamilton. subst i.
      unfold hamilton; cbn [x y z w]. intros Heq. apply Hw.
      replace (Dot lhs rhs)
        with ((w lhs * (w rhs / Dot rhs rhs) - x lhs * (- x rhs / Dot rhs rhs)
               - y lhs * (- y rhs / Dot rhs rhs) - z lhs * (- z rhs / Dot rhs rhs))
              * Dot rhs rhs)
        by (unfold Dot in *; field; exact Hd0).
      rewrite Heq. ring. }
    rewrite Hq. subst i.
    transitivity (new (x lhs) (y lhs) (z lhs) (w lhs));
      [| apply new_fields_nonzero_w, Hwl].
    unfold Multiply, hamilton; cbn [x y z w]. unfold Dot in *.
    f_equal; field; exact Hd0.
Qed.

Lemma Divide_Multiply_witness :
  Divide (Multiply (mk 3 0 0 4) (mk 0 (3/5) 0 (4/5))) (mk 0 (3/5) 0 (4/5))
  = mk 3 0 0 4
  /\ Multiply (Divide (mk 3 0 0 4) (mk 0 (3/5) 0 (4/5))) (mk 0 (3/5) 0 (4/5))
     = mk 3 0 0 4.
Proof.
  destruct (Divide_Multiply (mk 3 0 0 4) (mk 0 (3/5) 0 (4/5))) as [H1 H2].
  - simpl. lra.
  - simpl. lra.
  - split; [apply H1 | apply H2]; unfold Dot; simpl; lra.
Defined.

(** [conjugate] and [inverse] are involutions on the quaternions whose
    [w] is not zero, and they coincide on unit quaternions. *)
Theorem conjugate_inverse_involutive (q : t) :
  w q <> 0 ->
  conjugate (conjugate q) = q
  /\ inverse (inverse q) = q
  /\ (magnitude q = 1 -> inverse q = conjugate q).
Proof.
  intros Hw. destruct (inverse_Dot_form q Hw) as [Hd Hinv].
  assert (Hd0 : Dot q q <> 0) by lra.
  split; [| split].
  - rewrite (conjugate_nonzero_w q Hw).
    rewrite conjugate_nonzero_w by exact Hw.
    destruct q; simpl. f_equal; ring.
  - set (i := inverse q).
    assert (Hwi : w i <> 0).
    { subst i. rewrite Hinv. cbn [w]. apply div_nonzero; assumption. }
    destruct (inverse_Dot_form i Hwi) as [_ Hii]. rewrite Hii.
    assert (Hdi : Dot i i = / Dot q q).
    { subst i. rewrite Hinv. unfold Dot; cbn [x y z w]. unfold Dot in Hd0.
      field. exact Hd0. }
    rewrite Hdi. subst i. rewrite Hinv. cbn [x y z w].
    destruct q as [qx qy qz qw]. cbn [x y z w] in *.
    f_equal; field; exact Hd0.
  - intros Hm. apply magnitude_unit in Hm.
    rewrite Hinv, Hm, (conjugate_nonzero_w q Hw). f_equal; field.
Qed.

Lemma conjugate_inverse_involutive_witness :
  conjugate (conjugate q_35_45) = q_35_45
  /\ inverse (inverse q_35_45) = q_35_45
  /\ (magnitude q_35_45 = 1 -> inverse q_35_45 = conjugate q_35_45).
Proof.
  apply (conjugate_inverse_involutive q_35_45). simpl. lra.
Defined.

(** ** The instance methods on the heap *)

Lemma Inst_Add_frame (h : heap) (this other r : ref) :
  r <> this -> read (Inst.Add this other h) r = read h r.
Proof.
  intros Hne. unfold Inst.Add. cbv zeta. heap_simpl. reflexivity.
Qed.

Lemma Inst_Subtract_frame (h : heap) (this other r : ref) :
  r <> this -> read (Inst.Subtract this other h) r = read h r.
Proof.
  intros Hne. unfold Inst.Subtract. cbv zeta. heap_simpl. reflexivity.
Qed.

(** [q.Add(other)] followed by [q.Subtract(other)] gives [q] back when
    [other] is another object; on the receiver itself, [q.Add(q)] doubles
    every field and [q.Subtract(q)] leaves the zero quaternion
    [(0, 0, 0, 0)]. *)
Theorem Inst_Add_Subtract_roundtrip (h : heap) (this other : ref) :
  (other <> this ->
   read (Inst.Subtract this other (Inst.Add this other h)) this = read h this)
  /\ read (Inst.Add this this h) this
     = mk (x (read h this) + x (read h this)) (y (read h this) + y (read h this))
          (z (read h this) + z (read h this)) (w (read h this) + w (read h this))
  /\ read (Inst.Subtract this this h) this = mk 0 0 0 0.
Proof.
  split; [| split].
  - intros Hne. rewrite Inst_Subtract_receiver, Inst_Add_receiver.
    rewrite (Inst_Add_frame h this other other Hne).
    destruct (read h this) as [ax ay az aw]. cbn [x y z w]. f_equal; ring.
  - apply Inst_Add_receiver.
  - rewrite Inst_Subtract_receiver. f_equal; ring.
Qed.

Lemma Inst_Add_Subtract_roundtrip_witness :
  read (Inst.Subtract 0%nat 1%nat (Inst.Add 0%nat 1%nat two_objects)) 0%nat
  = read two_objects 0%nat.
Proof.
  apply (proj1 (Inst_Add_Subtract_roundtrip two_objects 0%nat 1%nat)).
  discriminate.
Defined.

(** No instance method writes to an object other than its receiver:
    [Add], [Subtract] and [Multiply] leave every other object as it was
    and allocate nothing; [Divide], on a receiver and an argument of the
    heap, leaves every other object of the heap as it was and allocates
    two objects, the conjugate of its argument and then its inverse. *)
Theorem Inst_frame (h : heap) (this other r : ref) :
  r <> this ->
  read (Inst.Add this other h) r = read h r
  /\ read (Inst.Subtract this other h) r = read h r
  /\ read (Inst.Multiply this other h) r = read h r
  /\ next (Inst.Add this other h) = next h
  /\ next (Inst.Subtract this other h) = next h
  /\ next (Inst.Multiply this other h) = next h
  /\ ((this < next h)%nat -> (other < next h)%nat ->
      ((r < next h)%nat -> read (Inst.Divide this other h) r = read h r)
      /\ next (Inst.Divide this other h) = S (S (next h))
      /\ read (Inst.Divide this other h) (next h) = conjugate (read h other)
      /\ read (Inst.Divide this other h) (S (next h)) = inverse (read h other)).
Proof.
  intros Hne.
  split; [apply Inst_Add_frame, Hne |].
  split; [apply Inst_Subtract_frame, Hne |].
  split; [apply Inst_Multiply_frame, Hne |].
  split; [reflexivity |]. split; [reflexivity |]. split; [reflexivity |].
  intros Hlt Hlo. rewrite Inst_Divide_eq.
  destruct (Inst_inverse_heap h other Hlo) as (Hr & Hn & Hconj & Hinv & Hold).
  split; [| split; [| split]].
  - intros Hrlt. rewrite Inst_Multiply_frame by exact Hne. apply Hold, Hrlt.
  - exact Hn.
  - rewrite Inst_Multiply_frame by lia. exact Hconj.
  - rewrite Inst_Multiply_frame by lia. exact Hinv.
Qed.

Lemma Inst_frame_witness :
  read (Inst.Add 0%nat 1%nat two_objects) 1%nat = read two_objects 1%nat
  /\ read (Inst.Multiply 0%nat 1%nat two_objects) 1%nat = read two_objects 1%nat
  /\ read (Inst.Divide 0%nat 1%nat two_objects) 1%nat = read two_objects 1%nat
  /\ next (Inst.Divide 0%nat 1%nat two_objects) = 4%nat
  /\ read (Inst.Divide 0%nat 1%nat two_objects) 2%nat
     = conjugate (read two_objects 1%nat)
  /\ read (Inst.Divide 0%nat 1%nat two_objects) 3%nat
     = inverse (read two_objects 1%nat).
Proof.
  pose proof (Inst_frame two_objects 0%nat 1%nat 1%nat ltac:(discriminate))
    as (Ha & _ & Hm & _ & _ & _ & Hd).
  destruct Hd as (Hd & Hn & Hc & Hi);
    [unfold two_objects; simpl; lia | unfold two_objects; simpl; lia |].
  split; [exact Ha | split; [exact Hm | split]].
  - apply Hd. unfold two_objects; simpl. lia.
  - split; [exact Hn | split; [exact Hc | exact Hi]].
Defined.

(** ** [Euler] and [eulerAngles] *)

Lemma sin2_cos2' (a : R) : sin a * sin a + cos a * cos a = 1.
Proof. pose proof (sin2_cos2 a) as H. unfold Rsqr in H. exact H. Qed.

Lemma Euler_sum_squares (c1 s1 c2 s2 c3 s3 : R) :
  s1 * s1 + c1 * c1 = 1 -> s2 * s2 + c2 * c2 = 1 -> s3 * s3 + c3 * c3 = 1 ->
  (s1 * c2 * c3 - c1 * s2 * s3) * (s1 * c2 * c3 - c1 * s2 * s3)
  + (c1 * s2 * c3 + s1 * c2 * s3) * (c1 * s2 * c3 + s1 * c2 * s3)
  + (c1 * c2 * s3 - s1 * s2 * c3) * (c1 * c2 * s3 - s1 * s2 * c3)
  + (c1 * c2 * c3 + s1 * s2 * s3) * (c1 * c2 * c3 + s1 * s2 * s3) = 1.
Proof.
  intros H1 H2 H3.
  transitivity ((s1 * s1 + c1 * c1) * (s2 * s2 + c2 * c2) * (s3 * s3 + c3 * c3));
    [ring | rewrite H1, H2, H3; ring].
Qed.

Lemma Euler_vector_part (c1 s1 c2 s2 c3 s3 : R) :
  s1 * s1 + c1 * c1 = 1 -> s2 * s2 + c2 * c2 = 1 -> s3 * s3 + c3 * c3 = 1 ->
  c1 * c2 * c3 + s1 * s2 * s3 = 0 ->
  (s1 * c2 * c3 - c1 * s2 * s3) * (s1 * c2 * c3 - c1 * s2 * s3)
  + (c1 * s2 * c3 + s1 * c2 * s3) * (c1 * s2 * c3 + s1 * c2 * s3)
  + (c1 * c2 * s3 - s1 * s2 * c3) * (c1 * c2 * s3 - s1 * s2 * c3) = 1.
Proof.
  intros H1 H2 H3 H0.
  pose proof (Euler_sum_squares c1 s1 c2 s2 c3 s3 H1 H2 H3) as H.
  rewrite H0 in H. lra.
Qed.

Lemma Euler_nonzero_w (v : Vector3.t) :
  Euler_w v <> 0 -> magnitude (Euler v) = 1 /\ w (Euler v) = Euler_w v.
Proof.
  pose proof (sin2_cos2' (Vector3.z v / 2)) as H1.
  pose proof (sin2_cos2' (Vector3.y v / 2)) as H2.
  pose proof (sin2_cos2' (Vector3.x v / 2)) as H3.
  unfold Euler_w, Euler. intros Hw.
  rewrite new_nonzero by exact Hw. split; [| reflexivity].
  apply magnitude_mk_unit. apply Euler_sum_squares; assumption.
Qed.

(** [Euler] returns a unit quaternion whenever the [w] it computes is
    not zero; when that [w] is zero (a half turn), the constructor puts
    [w = 1] and the result has magnitude [sqrt 2]. *)
Theorem Euler_unit (v : Vector3.t) :
  (Euler_w v <> 0 -> magnitude (Euler v) = 1 /\ w (Euler v) = Euler_w v)
  /\ (Euler_w v = 0 -> magnitude (Euler v) = sqrt 2 /\ w (Euler v) = 1).
Proof.
  split; [apply Euler_nonzero_w |].
  pose proof (sin2_cos2' (Vector3.z v / 2)) as H1.
  pose proof (sin2_cos2' (Vector3.y v / 2)) as H2.
  pose proof (sin2_cos2' (Vector3.x v / 2)) as H3.
  unfold Euler_w, Euler. intros Hw.
  rewrite Hw, new_zero. split; [| reflexivity].
  unfold magnitude, Dot; cbn [x y z w]. f_equal.
  rewrite Euler_vector_part by assumption. ring.
Qed.

Lemma Euler_w_zero : Euler_w (Vector3.mk 0 0 0) = 1.
Proof.
  unfold Euler_w; cbn [Vector3.x Vector3.y Vector3.z].
  replace (0 / 2) with 0 by field. rewrite cos_0, sin_0. ring.
Qed.

Lemma Euler_w_half_turn : Euler_w (Vector3.mk PI 0 0) = 0.
Proof.
  unfold Euler_w; cbn [Vector3.x Vector3.y Vector3.z].
  replace (0 / 2) with 0 by field. rewrite cos_0, sin_0, cos_PI2. ring.
Qed.

Lemma Euler_unit_witness :
  (magnitude (Euler (Vector3.mk 0 0 0)) = 1 /\ w (Euler (Vector3.mk 0 0 0)) = 1)
  /\ (magnitude (Euler (Vector3.mk PI 0 0)) = sqrt 2
      /\ w (Euler (Vector3.mk PI 0 0)) = 1).
Proof.
  split.
  - destruct (proj1 (Euler_unit (Vector3.mk 0 0 0))) as [Hm Hw].
    + rewrite Euler_w_zero. lra.
    + split; [exact Hm | rewrite Hw; exact Euler_w_zero].
  - apply (proj2 (Euler_unit (Vector3.mk PI 0 0))). exact Euler_w_half_turn.
Defined.

Lemma cos_gt_abs_sin (a : R) : - (PI / 4) < a < PI / 4 -> Rabs (sin a) < cos a.
Proof.
  intros [Hl Hu]. pose proof PI_RGT_0 as Hpi.
  assert (Hc : 0 < cos a) by (apply cos_gt_0; lra).
  assert (Hc2 : 0 < cos (2 * a)) by (apply cos_gt_0; lra).
  rewrite cos_2a in Hc2.
  apply Rabs_def1; nra.
Qed.

Lemma Euler_w_pos (v : Vector3.t) :
  - (PI / 2) < Vector3.x v < PI / 2 ->
  - (PI / 2) < Vector3.y v < PI / 2 ->
  - (PI / 2) < Vector3.z v < PI / 2 ->
  0 < Euler_w v.
Proof.
  intros Hx Hy Hz. unfold Euler_w.
  pose proof (cos_gt_abs_sin (Vector3.x v / 2) ltac:(lra)) as H1.
  pose proof (cos_gt_abs_sin (Vector3.y v / 2) ltac:(lra)) as H2.
  pose proof (cos_gt_abs_sin (Vector3.z v / 2) ltac:(lra)) as H3.
  set (c1 := cos (Vector3.z v / 2)) in *. set (s1 := sin (Vector3.z v / 2)) in *.
  set (c2 := cos (Vector3.y v / 2)) in *. set (s2 := sin (Vector3.y v / 2)) in *.
  set (c3 := cos (Vector3.x v / 2)) in *. set (s3 := sin (Vector3.x v / 2)) in *.
  pose proof (Rabs_pos s1). pose proof (Rabs_pos s2). pose proof (Rabs_pos s3).
  assert (H12 : Rabs s1 * Rabs s2 < c1 * c2)
    by (apply Rmult_le_0_lt_compat; assumption).
  assert (H123 : Rabs s1 * Rabs s2 * Rabs s3 < c1 * c2 * c3).
  { apply Rmult_le_0_lt_compat; try assumption.
    apply Rmult_le_pos; assumption. }
  rewrite <- !Rabs_mult in H123.
  apply Rabs_def2 in H123. lra.
Qed.

(** For Euler angles strictly between [- PI / 2] and [PI / 2], [Euler]
    returns a unit quaternion with a positive [w]. *)
Theorem Euler_small_angles (v : Vector3.t) :
  - (PI / 2) < Vector3.x v < PI / 2 ->
  - (PI / 2) < Vector3.y v < PI / 2 ->
  - (PI / 2) < Vector3.z v < PI / 2 ->
  magnitude (Euler v) = 1 /\ 0 < w (Euler v).
Proof.
  intros Hx Hy Hz. pose proof (Euler_w_pos v Hx Hy Hz) as Hpos.
  destruct (Euler_nonzero_w v) as [Hm Hw]; [lra |].
  split; [exact Hm | rewrite Hw; exact Hpos].
Qed.

Lemma Euler_small_angles_witness :
  magnitude (Euler (Vector3.mk (PI / 4) (- (PI / 3)) 0)) = 1
  /\ 0 < w (Euler (Vector3.mk (PI / 4) (- (PI / 3)) 0)).
Proof.
  pose proof PI_RGT_0 as Hpi.
  apply (Euler_small_angles (Vector3.mk (PI / 4) (- (PI / 3)) 0)); simpl; lra.
Defined.





End Quaternion.
